(** * RSSDOS: the feed aggregation pass, the narration worker and the
      auto-narration latch of [rss.py], embedded and verified.

    Python strings are sequences of Unicode code points and every length
    the program takes is a number of code points, so a [str] is a list of
    code points here.  Float timestamps ([time.time()], [Item.epoch],
    [cache_ts]) are only compared and subtracted; each is modelled by the
    rational number it denotes (no NaN, no infinity).

    The file and network operations of [fetch_all] are modelled by passing
    a [World] along; the library routines and the two collaborators of the
    pass (transport, XML decoder) are the fields of an [Env].  The worker
    thread of the narration is a transition system on a [Worker], whose
    steps interleave with those of the other threads and of the speech
    processes. *)

From Stdlib Require Import QArith.
From Stdlib Require Import String Ascii.
From stdpp Require Import gmap list numbers sorting.

Open Scope list_scope.
Open Scope Z_scope.

(* ===================================================================== *)
(** * Strings *)
(* ===================================================================== *)

Abbreviation str := (list N).

(** An ASCII literal as a [str]. *)
Definition py (s : string) : str := map N_of_ascii (list_ascii_of_string s).

(** [len(s)] *)
Definition len (s : str) : Z := Z.of_nat (length s).

(** The ellipsis marker, U+2026 (one code point). *)
Definition ELLIPSIS : N := 8230%N.

(** The code points [str.strip()] removes when called without argument. *)
Definition isspace (c : N) : bool :=
  ((9 <=? c) && (c <=? 13) || (28 <=? c) && (c <=? 32) || (c =? 133) || (c =? 160)
   || (c =? 5760) || (8192 <=? c) && (c <=? 8202) || (c =? 8232) || (c =? 8233)
   || (c =? 8239) || (c =? 8287) || (c =? 12288))%N.

(** [s.lstrip()] *)
Fixpoint lstrip (s : str) : str :=
  match s with
  | c :: s' => if isspace c then lstrip s' else s
  | [] => []
  end.

(** [s.rstrip()] *)
Fixpoint rstrip (s : str) : str :=
  match s with
  | [] => []
  | c :: s' =>
      match rstrip s' with
      | [] => if isspace c then [] else [c]
      | r => c :: r
      end
  end.

(** [s.strip()] *)
Definition strip (s : str) : str := rstrip (lstrip s).

(** [s.startswith(pat)] *)
Fixpoint startswith (pat s : str) : bool :=
  match pat, s with
  | [], _ => true
  | _ :: _, [] => false
  | a :: pat', b :: s' => (a =? b)%N && startswith pat' s'
  end.

(** [s.replace(old, new)] for a non-empty [old]: the occurrences of [old]
    are replaced from left to right, without overlap.  [skip] counts the
    code points of a matched occurrence still to be passed over. *)
Fixpoint replace_from (old new : str) (skip : nat) (s : str) : str :=
  match s with
  | [] => []
  | c :: s' =>
      match skip with
      | S k => replace_from old new k s'
      | O =>
          if startswith old s
          then new ++ replace_from old new (length old - 1) s'
          else c :: replace_from old new 0 s'
      end
  end.

Definition replace (old new s : str) : str := replace_from old new 0 s.

(** [s.split(sep, 1)] for a non-empty [sep]: what is before the first
    occurrence of [sep], and what is after it when there is one. *)
Fixpoint split1 (sep s : str) : str * option str :=
  match s with
  | [] => ([], None)
  | c :: s' =>
      if startswith sep s then ([], Some (drop (length sep) s))
      else let '(a, b) := split1 sep s' in (c :: a, b)
  end.

(** [sep in s] *)
Definition contains (sep s : str) : bool :=
  match snd (split1 sep s) with Some _ => true | None => false end.

(** [s.lower()] and [s.upper()] on the ASCII letters; the other code points
    are left as they are (the case mappings of Unicode outside ASCII are
    not modelled). *)
Definition lower_cp (c : N) : N := (if (65 <=? c) && (c <=? 90) then c + 32 else c)%N.
Definition upper_cp (c : N) : N := (if (97 <=? c) && (c <=? 122) then c - 32 else c)%N.
Definition lower (s : str) : str := map lower_cp s.
Definition upper (s : str) : str := map upper_cp s.

(* ===================================================================== *)
(** * UTIL *)
(* ===================================================================== *)

(** The character scan of [_strip_html]: [in_tag] is the flag of the loop. *)
Fixpoint strip_html_scan (in_tag : bool) (text : str) : str :=
  match text with
  | [] => []
  | ch :: rest =>
      if (ch =? 60)%N then strip_html_scan true rest          (* "<" *)
      else if (ch =? 62)%N then strip_html_scan false rest    (* ">" *)
      else if negb in_tag then ch :: strip_html_scan in_tag rest
      else strip_html_scan in_tag rest
  end.

Definition _strip_html (text : str) : str :=
  strip (replace [160%N] [32%N] (strip_html_scan false text)).

Definition _truncate (s : str) (n : Z) : str :=
  let s := strip s in
  if len s <=? n then s
  else rstrip (take (Z.to_nat (Z.max 0 (n - 1))) s) ++ [ELLIPSIS].

Definition _domain_from_url (url : str) : str :=
  let url := strip url in
  match url with
  | [] => []
  | _ =>
      let rest :=
        if contains (py "://") url
        then default [] (snd (split1 (py "://") url))
        else url in
      let host := fst (split1 (py "/") rest) in
      replace (py "www.") [] (lower host)
  end.

(* ===================================================================== *)
(** * CONFIG and MODELS *)
(* ===================================================================== *)

Definition CACHE_TTL_SECONDS : Q := 15 * 60.
Definition MAX_ITEMS_TOTAL : nat := 700.
Definition SUMMARY_CHARS_DETAIL : Z := 1400.

Definition AUTO_SPEAK_NEWEST_HEADLINE_ON_CHANGE : bool := true.
Definition AUTO_SPEAK_ON_START : bool := false.
Definition AUTO_SPEAK_INCLUDE_SUMMARY : bool := false.

Record Item : Type := {
    it_id : str;
    it_epoch : Q;
    it_ts : str;
    it_cat : str;
    it_src : str;
    it_src_code : str;
    it_title : str;
    it_summary : str;
    it_url : str;
    it_domain : str;
    it_is_new : bool;
}.

Record FeedStatus : Type := {
    st_name : str;
    st_cat : str;
    st_status : str;        (* OK / FAIL *)
    st_used_url : str;
    st_error : str;
    st_count : Z;
}.

(** One entry of [FEEDS]. *)
Record Feed : Type := { f_cat : str; f_name : str; f_urls : list str }.

(** One record of [parse_feed_best_effort]: the dict with the keys
    [title], [url], [summary] and [date]. *)
Record RawRecord : Type := { p_title : str; p_url : str; p_summary : str; p_date : str }.

Definition SRC_CODE : gmap str str :=
  list_to_map [
    (py "CBC Top Stories", py "CBC");
    (py "CBC Canada", py "CBC");
    (py "Al Jazeera", py "AJZ");
    (py "The Guardian World", py "GDN");
    (py "The Guardian Business", py "GDN");
    (py "BBC World", py "BBC");
    (py "BBC Sci/Env", py "BBC");
    (py "Ars Technica", py "ARS");
    (py "The Register", py "REG");
    (py "Hacker News", py "HN");
    (py "ScienceDaily", py "SCI");
    (py "NASA Breaking", py "NASA");
    (py "arXiv cs.AI", py "ARX");
    (py "arXiv cs.LG", py "ARX");
    (py "Bank of Canada News", py "BoC");
    (py "BoC Press Releases", py "BoC");
    (py "BoC Market Notices", py "BoC");
    (py "WTO Latest News", py "WTO");
    (py "Env Canada (BC Warnings)", py "ECCC")
  ].

Definition feed (cat name : string) (urls : list string) : Feed :=
  {| f_cat := py cat; f_name := py name; f_urls := map py urls |}.

Definition FEEDS : list Feed := [
  feed "NEWS" "CBC Top Stories" ["https://www.cbc.ca/webfeed/rss/rss-topstories"%string];
  feed "NEWS" "CBC Canada" ["https://www.cbc.ca/webfeed/rss/rss-canada"%string];
  feed "WORLD" "Al Jazeera" ["https://www.aljazeera.com/xml/rss/all.xml"%string];
  feed "WORLD" "The Guardian World" ["https://www.theguardian.com/world/rss"%string];
  feed "WORLD" "BBC World" ["http://feeds.bbci.co.uk/news/world/rss.xml"%string];
  feed "FINANCE" "The Guardian Business" ["https://www.theguardian.com/business/rss"%string];
  feed "ECONOMY" "Bank of Canada News" ["https://www.bankofcanada.ca/utility/news/feed/"%string];
  feed "ECONOMY" "BoC Press Releases" ["https://www.bankofcanada.ca/content_type/press-releases/feed/"%string];
  feed "FINANCE" "BoC Market Notices" ["https://www.bankofcanada.ca/content_type/notices/feed/"%string];
  feed "TRADE" "WTO Latest News" ["https://www.wto.org/library/rss/latest_news_e.xml"%string];
  feed "SCIENCE" "ScienceDaily" ["https://www.sciencedaily.com/rss/all.xml"%string];
  feed "SCIENCE" "BBC Sci/Env" ["http://feeds.bbci.co.uk/news/science_and_environment/rss.xml"%string];
  feed "SCIENCE" "NASA Breaking" ["https://www.nasa.gov/rss/dyn/breaking_news.rss"%string];
  feed "RESEARCH" "arXiv cs.AI" ["http://export.arxiv.org/rss/cs.AI"%string];
  feed "RESEARCH" "arXiv cs.LG" ["http://export.arxiv.org/rss/cs.LG"%string];
  feed "TECH" "Ars Technica" ["https://feeds.arstechnica.com/arstechnica/index"%string];
  feed "TECH" "The Register" ["https://www.theregister.com/headlines.atom"%string];
  feed "TECH" "Hacker News" ["https://hnrss.org/frontpage"%string];
  feed "WEATHER" "Env Canada (BC Warnings)" ["https://weather.gc.ca/rss/battleboard/bcrm1_e.xml"%string]
].

(* ===================================================================== *)
(** * Exceptions, collaborators and the persisted state *)
(* ===================================================================== *)

(** A raised exception: its type name and its message. *)
Record Exn : Type := { exn_type : str; exn_msg : str }.

Inductive Result (A : Type) : Type :=
| Ok (a : A)
| Raise (e : Exn).
Arguments Ok {A} a.
Arguments Raise {A} e.

(** [f"{type(e).__name__}: {e}"] *)
Definition fmt_exc (e : Exn) : str := exn_type e ++ py ": " ++ exn_msg e.

(** What the pass calls and does not define: the transport, the XML
    decoder, and the library routines for entities, dates and clock
    formatting.  A date routine answers the timestamp of the instant it
    parsed (a time without zone being read as UTC), or [None] when the [try]
    block around it raises.  Within one pass the answer of the transport
    for a URL is taken as fixed. *)
Record Env : Type := {
  http_get : str → Result (list N);
  parse_feed_best_effort : list N → Result (list RawRecord);
  html_unescape : str → str;
  rfc2822_timestamp : str → option Q;      (* parsedate_to_datetime(s) ... .timestamp() *)
  iso_timestamp : str → option Q;          (* datetime.fromisoformat(s) ... .timestamp() *)
  strftime_hhmm : Q → option str;          (* time.strftime("%H:%M", time.localtime(epoch)) *)
  strftime_now : Q → str;                  (* datetime.now().strftime("%Y-%m-%d %H:%M:%S") *)
  float_of_str : str → option Q;           (* float(s) for a string s *)
}.

(** One element of a JSON array in the cache file: an object with exactly
    the fields of [Item], one with exactly the fields of [FeedStatus], or
    anything else. *)
Inductive Row : Type :=
| RowItem (it : Item)
| RowStatus (st : FeedStatus)
| RowOther.

(** The JSON values the pass tells apart under a key of the cache object. *)
Inductive JVal : Type :=
| JNull
| JNum (q : Q)
| JStr (s : str)
| JList (rows : list Row).

(** The cache file. *)
Inductive CacheFile : Type :=
| CacheMissing                          (* CACHE_FILE.exists() is False *)
| CacheGarbled                          (* read_text or json.loads raises *)
| CacheNotDict                          (* JSON, but not an object: data.get raises *)
| CacheDict (data : gmap string JVal).  (* a JSON object *)

(** The seen-ledger file; a list holds strings. *)
Inductive SeenFile : Type :=
| SeenMissing                           (* SEEN_FILE.exists() is False *)
| SeenGarbled                           (* read_text or json.loads raises *)
| SeenNotList                           (* JSON, but not an array *)
| SeenList (ids : list str).

Inductive Event : Type :=
| EvCacheRead
| EvSeenRead
| EvHttpGet (u : str)
| EvSeenWrite (ok : bool)
| EvCacheWrite (ok : bool).

(** The state the pass reads and writes.  [cache_write_exn] and
    [seen_write_exn] hold the exception [write_text] raises on the file, if
    it raises; a write that raises leaves the content as it was in this
    model.  [log] records the file and network operations in the order they
    happen. *)
Record World : Type := {
  cache_file : CacheFile;
  seen_file : SeenFile;
  cache_write_exn : option Exn;
  seen_write_exn : option Exn;
  now : Q;                               (* time.time() *)
  log : list Event;
}.

Definition emit (ev : Event) (w : World) : World :=
  {| cache_file := cache_file w; seen_file := seen_file w;
     cache_write_exn := cache_write_exn w; seen_write_exn := seen_write_exn w;
     now := now w; log := log w ++ [ev] |}.

Definition set_seen_file (f : SeenFile) (w : World) : World :=
  {| cache_file := cache_file w; seen_file := f;
     cache_write_exn := cache_write_exn w; seen_write_exn := seen_write_exn w;
     now := now w; log := log w |}.

Definition set_cache_file (f : CacheFile) (w : World) : World :=
  {| cache_file := f; seen_file := seen_file w;
     cache_write_exn := cache_write_exn w; seen_write_exn := seen_write_exn w;
     now := now w; log := log w |}.

(* ===================================================================== *)
(** * Dates, ledger and cache *)
(* ===================================================================== *)

(** [a or b] on strings *)
Definition str_or (a b : str) : str := match a with [] => b | _ => a end.

(** [s.endswith("Z")] *)
Definition endswith_Z (s : str) : bool :=
  match last s with Some c => (c =? 90)%N | None => false end.

Definition _parse_date_any (env : Env) (s : str) : Q :=
  let s := strip s in
  match s with
  | [] => 0%Q
  | _ =>
      match rfc2822_timestamp env s with
      | Some t => t
      | None =>
          let s := if endswith_Z s then removelast s ++ py "+00:00" else s in
          match iso_timestamp env s with
          | Some t => t
          | None => 0%Q
          end
      end
  end.

Definition _fmt_hhmm (env : Env) (epoch : Q) : str :=
  if Qeq_bool epoch 0 then py "--:--"
  else match strftime_hhmm env epoch with
       | Some s => s
       | None => py "--:--"
       end.

(** The order of [sorted] on strings: lexicographic on the code points. *)
Fixpoint str_leb (a b : str) : bool :=
  match a, b with
  | [], _ => true
  | _ :: _, [] => false
  | x :: a', y :: b' => (x <? y)%N || ((x =? y)%N && str_leb a' b')
  end.

Definition str_le (a b : str) : Prop := str_leb a b = true.

#[global] Instance str_le_dec : RelDecision str_le.
Proof. intros a b. unfold str_le. apply _. Defined.

(** [sorted(seen)] *)
Definition sorted_ids (seen : gset str) : list str :=
  merge_sort str_le (elements seen).

Definition load_seen (w : World) : gset str * World :=
  let w := emit EvSeenRead w in
  match seen_file w with
  | SeenList ids => (list_to_set ids, w)
  | SeenMissing | SeenGarbled | SeenNotList => (∅, w)
  end.

Definition save_seen (seen : gset str) (w : World) : World :=
  match seen_write_exn w with
  | None => emit (EvSeenWrite true) (set_seen_file (SeenList (sorted_ids seen)) w)
  | Some _ => emit (EvSeenWrite false) w          (* except Exception: pass *)
  end.

(** [float(v)]; [None] when it raises. *)
Definition py_float (env : Env) (v : JVal) : option Q :=
  match v with
  | JNum q => Some q
  | JStr s => float_of_str env s
  | JNull | JList _ => None
  end.

Definition load_cache (env : Env) (w : World) : option (gmap string JVal) * World :=
  let w := emit EvCacheRead w in
  match cache_file w with
  | CacheMissing => (None, w)
  | CacheGarbled | CacheNotDict => (None, w)
  | CacheDict data =>
      match py_float env (default (JNum 0) (data !! "cache_ts"%string)) with
      | Some ts =>
          let age := (now w - ts)%Q in
          if Qle_bool age CACHE_TTL_SECONDS then (Some data, w) else (None, w)
      | None => (None, w)
      end
  end.

(** The [payload] of [save_cache], built at the time [t]. *)
Definition cache_payload (env : Env) (t : Q) (items : list Item)
    (statuses : list FeedStatus) : gmap string JVal :=
  list_to_map [
    ("cache_ts"%string, JNum t);
    ("fetched_at"%string, JStr (strftime_now env t));
    ("items"%string, JList (map RowItem items));
    ("statuses"%string, JList (map RowStatus statuses))
  ].

Definition save_cache (env : Env) (items : list Item) (statuses : list FeedStatus)
    (w : World) : Result unit * World :=
  let payload := cache_payload env (now w) items statuses in
  match cache_write_exn w with
  | None => (Ok tt, emit (EvCacheWrite true) (set_cache_file (CacheDict payload) w))
  | Some e => (Raise e, emit (EvCacheWrite false) w)
  end.

Definition TypeError : Exn := {| exn_type := py "TypeError"; exn_msg := [] |}.

(** The comprehension that builds one [Item] from each dict of
    [cached.get("items", [])]; a dict with other keys raises. *)
Fixpoint items_of_rows (rows : list Row) : Result (list Item) :=
  match rows with
  | [] => Ok []
  | RowItem it :: rows' =>
      match items_of_rows rows' with
      | Ok l => Ok (it :: l)
      | Raise e => Raise e
      end
  | _ :: _ => Raise TypeError
  end.

Fixpoint statuses_of_rows (rows : list Row) : Result (list FeedStatus) :=
  match rows with
  | [] => Ok []
  | RowStatus st :: rows' =>
      match statuses_of_rows rows' with
      | Ok l => Ok (st :: l)
      | Raise e => Raise e
      end
  | _ :: _ => Raise TypeError
  end.

(** The rows a comprehension iterates over; an absent key gives the default
    [[]], an empty string has nothing to iterate, the other values raise. *)
Definition rows_of (v : option JVal) : Result (list Row) :=
  match v with
  | None => Ok []
  | Some (JList rows) => Ok rows
  | Some (JStr []) => Ok []
  | Some (JStr (_ :: _)) | Some JNull | Some (JNum _) => Raise TypeError
  end.

Definition cached_items (cached : gmap string JVal) : Result (list Item) :=
  match rows_of (cached !! "items"%string) with
  | Ok rows => items_of_rows rows
  | Raise e => Raise e
  end.

Definition cached_statuses (cached : gmap string JVal) : Result (list FeedStatus) :=
  match rows_of (cached !! "statuses"%string) with
  | Ok rows => statuses_of_rows rows
  | Raise e => Raise e
  end.

(* ===================================================================== *)
(** * FETCH *)
(* ===================================================================== *)

(** The sort key of [items.sort]: [float(x.epoch or 0.0)]. *)
Definition sort_key (x : Item) : Q :=
  if Qeq_bool (it_epoch x) 0 then 0%Q else it_epoch x.

(** [items.sort(key=..., reverse=True)].  [list.sort] is stable, also with
    [reverse=True]: items with equal keys keep the order they had.  The
    result of a stable sort is determined by the list and the keys; this
    insertion sort computes it: an item is placed after the items of a
    strictly greater key and before everything else. *)
Fixpoint insert_desc (x : Item) (l : list Item) : list Item :=
  match l with
  | [] => [x]
  | y :: l' =>
      if Qle_bool (sort_key y) (sort_key x) then x :: y :: l'
      else y :: insert_desc x l'
  end.

Definition sort_desc (l : list Item) : list Item := foldr insert_desc [] l.

(** The body of [for p in parsed]: one record made into one [Item]. *)
Definition make_item (env : Env) (seen : gset str) (cat name : str) (p : RawRecord) : Item :=
  let title_raw := html_unescape env (_strip_html (p_title p)) in
  let summary_raw := html_unescape env (_strip_html (p_summary p)) in
  let url := strip (p_url p) in
  let fallback_id := name ++ py "|" ++ take 200 title_raw ++ py "|" ++ take 50 (p_date p) in
  let item_id := str_or url fallback_id in
  let epoch := _parse_date_any env (p_date p) in
  let domain := _domain_from_url url in
  let is_new := bool_decide (item_id ∉ seen) in
  {| it_id := item_id;
     it_epoch := epoch;
     it_ts := _fmt_hhmm env epoch;
     it_cat := cat;
     it_src := name;
     it_src_code := default (upper (take 6 name)) (SRC_CODE !! name);
     it_title := str_or (_truncate title_raw 260) (py "(no title)");
     it_summary := _truncate summary_raw SUMMARY_CHARS_DETAIL;
     it_url := url;
     it_domain := domain;
     it_is_new := is_new |}.

(** The two calls of an attempt that can raise: [http_get(u)], then
    [parse_feed_best_effort(raw)].  Every routine called in the record loop
    after them catches its own exceptions. *)
Definition attempt (env : Env) (u : str) : Result (list RawRecord) :=
  match http_get env u with
  | Ok raw => parse_feed_best_effort env raw
  | Raise e => Raise e
  end.

(** The variables the loop over the URLs of one feed updates; [items] is
    the list of the whole pass, appended to in place. *)
Record Locals : Type := {
    loc_items : list Item;
    loc_used_url : str;
    loc_last_err : str;
    loc_count : Z;
}.

(** [for u in urls: try: ... break  except Exception as e: ... continue] *)
Fixpoint try_urls (env : Env) (seen : gset str) (cat name : str) (urls : list str)
    (st : Locals) (w : World) : Locals * World :=
  match urls with
  | [] => (st, w)
  | u :: urls' =>
      let w := emit (EvHttpGet u) w in
      match attempt env u with
      | Ok parsed =>
          ({| loc_items := loc_items st ++ map (make_item env seen cat name) parsed;
              loc_used_url := u;
              loc_last_err := [];
              loc_count := loc_count st + Z.of_nat (length parsed) |}, w)
      | Raise e =>
          try_urls env seen cat name urls'
            {| loc_items := loc_items st;
               loc_used_url := loc_used_url st;
               loc_last_err := fmt_exc e;
               loc_count := loc_count st |} w
      end
  end.

(** [not s] on a string *)
Definition is_empty (s : str) : bool := match s with [] => true | _ => false end.

(** The body of [for f in FEEDS]. *)
Definition fetch_feed (env : Env) (seen : gset str) (f : Feed)
    (items : list Item) (statuses : list FeedStatus) (w : World)
    : list Item * list FeedStatus * World :=
  let cat := f_cat f in
  let name := f_name f in
  let urls := f_urls f in
  let '(st, w) :=
    try_urls env seen cat name urls
      {| loc_items := items; loc_used_url := [];
         loc_last_err := []; loc_count := 0 |} w in
  let status :=
    if (0 <? loc_count st) && is_empty (loc_last_err st)
    then {| st_name := name; st_cat := cat;
            st_status := py "OK"; st_used_url := loc_used_url st;
            st_error := []; st_count := loc_count st |}
    else {| st_name := name; st_cat := cat;
            st_status := py "FAIL"; st_used_url := hd [] urls;
            st_error := loc_last_err st; st_count := 0 |} in
  (loc_items st, statuses ++ [status], w).

Fixpoint fetch_feeds (env : Env) (seen : gset str) (feeds : list Feed)
    (items : list Item) (statuses : list FeedStatus) (w : World)
    : list Item * list FeedStatus * World :=
  match feeds with
  | [] => (items, statuses, w)
  | f :: feeds' =>
      let '(items, statuses, w) := fetch_feed env seen f items statuses w in
      fetch_feeds env seen feeds' items statuses w
  end.

(** [for it in items: if it.id: seen.add(it.id)] *)
Definition add_seen (seen : gset str) (items : list Item) : gset str :=
  foldl (λ seen it, if is_empty (it_id it) then seen else {[it_id it]} ∪ seen) seen items.

(** The live pass over [feeds]: [fetch_all] from [seen = load_seen()] on. *)
Definition live_pass (env : Env) (feeds : list Feed) (w : World)
    : Result (list Item * list FeedStatus * str) * World :=
  let '(seen, w) := load_seen w in
  let '(items, statuses, w) := fetch_feeds env seen feeds [] [] w in
  let items := sort_desc items in
  let items := take MAX_ITEMS_TOTAL items in
  let seen := add_seen seen items in
  let w := save_seen seen w in
  match save_cache env items statuses w with
  | (Ok _, w) => (Ok (items, statuses, py "live"), w)
  | (Raise e, w) => (Raise e, w)
  end.

(** [fetch_all] over a list of feeds; the program runs it on [FEEDS]. *)
Definition fetch_all_on (env : Env) (feeds : list Feed) (force_refresh : bool) (w : World)
    : Result (list Item * list FeedStatus * str) * World :=
  if negb force_refresh then
    let '(cached, w') := load_cache env w in
    match cached with
    | Some cached =>
        if bool_decide (cached = ∅) then live_pass env feeds w'   (* an empty dict is false *)
        else
          match cached_items cached with
          | Raise e => (Raise e, w')
          | Ok items =>
              match cached_statuses cached with
              | Raise e => (Raise e, w')
              | Ok statuses => (Ok (items, statuses, py "cache"), w')
              end
          end
    | None => live_pass env feeds w'
    end
  else live_pass env feeds w.

Definition fetch_all (env : Env) (force_refresh : bool) (w : World)
    : Result (list Item * list FeedStatus * str) * World :=
  fetch_all_on env FEEDS force_refresh w.

(* ===================================================================== *)
(** * Derived notions and sample inputs *)
(* ===================================================================== *)

(** A cleaned title of 300 code points whose 259th code point is a blank. *)
Definition title_300_blank : str := replicate 258 97%N ++ [32%N] ++ replicate 41 98%N.


(** The [host] variable of [_domain_from_url]. *)
Definition host_of_url (url : str) : str :=
  let url := strip url in
  let rest :=
    if contains (py "://") url
    then default [] (snd (split1 (py "://") url))
    else url in
  fst (split1 (py "/") rest).

(** [s.removeprefix(pre)] *)
Definition removeprefix (pre s : str) : str :=
  if startswith pre s then drop (length pre) s else s.

(** The domain as the specification words it: the host, lower-cased, with
    the leading "www." stripped and nothing else altered; empty for an
    empty URL. *)
Definition domain_as_specified (url : str) : str :=
  match strip url with
  | [] => []
  | _ => removeprefix (py "www.") (lower (host_of_url url))
  end.


(* --------------------------------------------------------------------- *)
(** ** What a feed comes to in a pass *)
(* --------------------------------------------------------------------- *)

(** An attempt on a URL fails when the fetch or the parse raises. *)
Definition fails (env : Env) (u : str) : Prop := ∃ e, attempt env u = Raise e.

(** What the loop over the URLs of a feed comes to: the first attempt that
    does not raise wins, with its URL and its records; without one, the
    last error remains (the initial one when there is no URL). *)
Inductive Outcome : Type :=
| Won (u : str) (parsed : list RawRecord)
| Lost (last_err : str).

Fixpoint outcome (env : Env) (urls : list str) (last_err : str) : Outcome :=
  match urls with
  | [] => Lost last_err
  | u :: urls' =>
      match attempt env u with
      | Ok parsed => Won u parsed
      | Raise e => outcome env urls' (fmt_exc e)
      end
  end.

(** The items a feed adds to the merged list. *)
Definition contribution (env : Env) (seen : gset str) (f : Feed) : list Item :=
  match outcome env (f_urls f) [] with
  | Won _ parsed => map (make_item env seen (f_cat f) (f_name f)) parsed
  | Lost _ => []
  end.

(** The merged list of a pass, before it is sorted and cut. *)
Definition merged (env : Env) (seen : gset str) (feeds : list Feed) : list Item :=
  flat_map (contribution env seen) feeds.

Definition status_FAIL (f : Feed) (error : str) : FeedStatus :=
  {| st_name := f_name f; st_cat := f_cat f; st_status := py "FAIL";
     st_used_url := hd [] (f_urls f); st_error := error; st_count := 0 |}.

Definition status_OK (f : Feed) (used_url : str) (count : Z) : FeedStatus :=
  {| st_name := f_name f; st_cat := f_cat f; st_status := py "OK";
     st_used_url := used_url; st_error := []; st_count := count |}.

(** The status a feed gets. *)
Definition feed_status (env : Env) (f : Feed) : FeedStatus :=
  match outcome env (f_urls f) [] with
  | Won u parsed =>
      if 0 <? Z.of_nat (length parsed)
      then status_OK f u (Z.of_nat (length parsed))
      else status_FAIL f []
  | Lost e => status_FAIL f e
  end.

(** The world at a later reading [t] of the clock. *)
Definition at_time (t : Q) (w : World) : World :=
  {| cache_file := cache_file w; seen_file := seen_file w;
     cache_write_exn := cache_write_exn w; seen_write_exn := seen_write_exn w;
     now := t; log := log w |}.

(** The ledger a pass starts from. *)
Definition seen_at_start (w : World) : gset str := fst (load_seen w).

(** Descending order of the epochs. *)
Definition epoch_ge (a b : Item) : Prop := (it_epoch b <= it_epoch a)%Q.

(** The items of a list whose epoch is [k], in the order of the list. *)
Definition with_epoch (k : Q) (l : list Item) : list Item :=
  List.filter (λ x, Qeq_bool (it_epoch x) k) l.

(** Two worlds that differ in their logs only. *)
Definition same_files (w w' : World) : Prop :=
  cache_file w' = cache_file w ∧ seen_file w' = seen_file w ∧
  cache_write_exn w' = cache_write_exn w ∧ seen_write_exn w' = seen_write_exn w ∧
  now w' = now w.



(* --------------------------------------------------------------------- *)
(** ** Sample collaborators and worlds *)
(* --------------------------------------------------------------------- *)

Fixpoint assoc {A} (k : str) (l : list (str * A)) : option A :=
  match l with
  | [] => None
  | (k', v) :: l' => if bool_decide (k' = k) then Some v else assoc k l'
  end.

Definition URLError : Exn :=
  {| exn_type := py "URLError"; exn_msg := py "<urlopen error timed out>" |}.
Definition ParseError : Exn :=
  {| exn_type := py "ParseError"; exn_msg := py "syntax error: line 1, column 0" |}.
Definition PermissionError : Exn :=
  {| exn_type := py "PermissionError";
     exn_msg := py "[Errno 13] Permission denied: 'rssdos_cache.json'" |}.

(** A transport that serves the URLs of [pages] (the payload of a URL being
    the URL itself) and times out on the others, a decoder that answers what
    [pages] says for the payload, and date routines that know the dates of
    [rfc_dates] and [iso_dates].  The sample records hold no entity, so
    [html_unescape] leaves them as they are. *)
Definition sample_env (pages : list (str * Result (list RawRecord)))
    (rfc_dates iso_dates : list (str * Q)) : Env :=
  {| http_get u := match assoc u pages with Some _ => Ok u | None => Raise URLError end;
     parse_feed_best_effort raw := default (Raise ParseError) (assoc raw pages);
     html_unescape s := s;
     rfc2822_timestamp s := assoc s rfc_dates;
     iso_timestamp s := assoc s iso_dates;
     strftime_hhmm e := Some (py "10:00");
     strftime_now t := py "2026-11-03 12:00:00";
     float_of_str s := None |}.

Definition world0 : World :=
  {| cache_file := CacheMissing; seen_file := SeenMissing;
     cache_write_exn := None; seen_write_exn := None;
     now := 1793707200; log := [] |}.

Definition url_topstories : str := py "https://www.cbc.ca/webfeed/rss/rss-topstories".
Definition url_canada : str := py "https://www.cbc.ca/webfeed/rss/rss-canada".
Definition url_aljazeera : str := py "https://www.aljazeera.com/xml/rss/all.xml".

Definition date_nov2 : str := py "Mon, 02 Nov 2026 10:00:00 +0000".
Definition date_1969 : str := py "Wed, 31 Dec 1969 00:00:00 +0000".
Definition known_dates : list (str * Q) :=
  [(date_nov2, 1793613600%Q); (date_1969, (-86400)%Q)].

Definition story_1 : RawRecord :=
  {| p_title := py "Story one"; p_url := py "https://www.cbc.ca/news/story-1";
     p_summary := py "<p>First story</p>"; p_date := date_nov2 |}.

(** A record without a date that parses, and one dated before 1970. *)
Definition story_undated : RawRecord :=
  {| p_title := py "Undated"; p_url := py "https://www.cbc.ca/news/undated";
     p_summary := []; p_date := py "yesterday" |}.
Definition story_1969 : RawRecord :=
  {| p_title := py "Archive"; p_url := py "https://www.cbc.ca/news/archive-1969";
     p_summary := []; p_date := date_1969 |}.


(** One feed with an undated record followed by a record of 1969. *)
Definition env_old_story : Env :=
  sample_env [(url_topstories, Ok [story_undated; story_1969])] known_dates [].

(** The first feed answers with one story, the second with a payload that
    does not parse, the third with a well-formed feed without any record;
    the other feeds time out. *)
Definition env_mixed : Env :=
  sample_env [(url_topstories, Ok [story_1]); (url_canada, Raise ParseError);
              (url_aljazeera, Ok [])] known_dates [].

(** A world where the cache file cannot be written, and one where the
    ledger file cannot. *)
Definition world_cache_readonly : World :=
  {| cache_file := CacheMissing; seen_file := SeenMissing;
     cache_write_exn := Some PermissionError; seen_write_exn := None;
     now := 1793707200; log := [] |}.
Definition world_seen_readonly : World :=
  {| cache_file := CacheMissing; seen_file := SeenMissing;
     cache_write_exn := None; seen_write_exn := Some PermissionError;
     now := 1793707200; log := [] |}.

(** [float(data.get("cache_ts", 0))]; [None] when it raises. *)
Definition cache_ts_of (env : Env) (data : gmap string JVal) : option Q :=
  py_float env (default (JNum 0) (data !! "cache_ts"%string)).





(* ===================================================================== *)
(** * TTS: the narration worker *)
(* ===================================================================== *)

(** An entry of the queue of the worker: [("speak", text)], [("stop", None)]
    or [("__quit__", None)]. *)
Inductive Command : Type :=
| Speak (text : str)
| Stop
| Quit.

(** Where the thread of [_run] stands. *)
Inductive Pc : Type :=
| AtLoopHead                 (* at [while self._alive] *)
| InGet                      (* in [self._q.get()] *)
| Draining                   (* in the drain loop of "stop" *)
| Launching (text : str)     (* after [self._kill_proc()], at [subprocess.Popen] *)
| Waiting (p : nat)          (* in [p.wait()] *)
| Returned.                  (* [_run] has returned *)

(** The worker and the speech processes.  A process is named by its rank
    among the processes started; [running] holds the processes that have
    been started and have neither ended nor been killed. *)
Record Worker : Type := {
  _q : list Command;
  _proc : option nat;
  _alive : bool;
  pc : Pc;
  running : gset nat;
  started : list str;          (* the text of every process started, in order *)
}.

(** [WindowsTTSWorker.__init__] *)
Definition worker0 : Worker :=
  {| _q := []; _proc := None; _alive := true; pc := AtLoopHead;
     running := ∅; started := [] |}.

Definition set_pc (c : Pc) (st : Worker) : Worker :=
  {| _q := _q st; _proc := _proc st; _alive := _alive st; pc := c;
     running := running st; started := started st |}.

Definition set_q (q : list Command) (st : Worker) : Worker :=
  {| _q := q; _proc := _proc st; _alive := _alive st; pc := pc st;
     running := running st; started := started st |}.

(** [_kill_proc]: the handle is taken and cleared under the lock; a process
    that has not ended is killed ([taskkill /F /T], else [terminate]),
    which is taken to succeed. *)
Definition _kill_proc (st : Worker) : Worker :=
  match _proc st with
  | None => st
  | Some p =>
      {| _q := _q st; _proc := None; _alive := _alive st; pc := pc st;
         running := running st ∖ {[p]}; started := started st |}
  end.

(** [subprocess.Popen] succeeding, then [self._proc = p]. *)
Definition launch (text : str) (st : Worker) : Worker :=
  let p := length (started st) in
  {| _q := _q st; _proc := Some p; _alive := _alive st; pc := Waiting p;
     running := {[p]} ∪ running st; started := started st ++ [text] |}.

(** The thread of [_run] advancing to its next point.  [raises] tells
    whether the call it stands at ([Popen], [wait]) raises.  In [get] with
    an empty queue, and in [wait] on a process that has not ended, the
    thread is blocked and nothing changes. *)
Definition worker_step (raises : bool) (st : Worker) : Worker :=
  match pc st with
  | AtLoopHead => if _alive st then set_pc InGet st else set_pc Returned st
  | InGet =>
      match _q st with
      | [] => st
      | Quit :: q => set_pc Returned (set_q q st)
      | Stop :: q => set_pc Draining (_kill_proc (set_q q st))
      | Speak payload :: q =>
          let st := set_q q st in
          let text := strip payload in
          if is_empty text then set_pc AtLoopHead st
          else
            let text := if 2500 <? len text then take 2490 text ++ [ELLIPSIS] else text in
            set_pc (Launching text) (_kill_proc st)
      end
  | Draining =>
      match _q st with
      | [] => set_pc AtLoopHead st
      | Quit :: q => set_pc Returned (set_q q st)
      | _ :: q => set_q q st
      end
  | Launching text =>
      if raises then set_pc AtLoopHead (_kill_proc st)
      else launch text st
  | Waiting p =>
      if raises then set_pc AtLoopHead (_kill_proc st)
      else if bool_decide (p ∈ running st) then st
      else set_pc AtLoopHead st
  | Returned => st
  end.

(** What can happen next: another thread puts a command on the queue
    ([speak_async], [stop], [shutdown]) or clears [_alive] ([shutdown]), a
    speech process ends by itself, or the worker thread advances. *)
Inductive Action : Type :=
| Put (c : Command)
| ClearAlive
| Ended (p : nat)
| Work
| WorkRaise.

Definition step (a : Action) (st : Worker) : Worker :=
  match a with
  | Put c => set_q (_q st ++ [c]) st
  | ClearAlive =>
      {| _q := _q st; _proc := _proc st; _alive := false; pc := pc st;
         running := running st; started := started st |}
  | Ended p =>
      {| _q := _q st; _proc := _proc st; _alive := _alive st; pc := pc st;
         running := running st ∖ {[p]}; started := started st |}
  | Work => worker_step false st
  | WorkRaise => worker_step true st
  end.

Definition run (actions : list Action) (st : Worker) : Worker :=
  foldl (λ st a, step a st) st actions.

(** The states the worker can be in. *)
Definition reachable (st : Worker) : Prop := ∃ actions, st = run actions worker0.

(** What the drain loop of "stop" leaves of a queue that nothing is added
    to meanwhile, and where the thread stands then. *)
Fixpoint drained (q : list Command) : Pc * list Command :=
  match q with
  | [] => (AtLoopHead, [])
  | Quit :: q' => (Returned, q')
  | _ :: q' => drained q'
  end.

(** The number of steps the drain loop takes on a queue. *)
Fixpoint drain_steps (q : list Command) : nat :=
  match q with
  | [] => 1
  | Quit :: _ => 1
  | _ :: q' => S (drain_steps q')
  end.

(** What holds of every state the worker can be in: a process runs only
    while the thread waits for it, and it is then the one of the handle. *)
Definition single_flight (st : Worker) : Prop :=
  match pc st with
  | Waiting p => running st ⊆ {[p]} ∧ _proc st = Some p
  | _ => running st = ∅
  end.

(* ===================================================================== *)
(** * The auto-narration latch *)
(* ===================================================================== *)

(** [" ".join(parts)] *)
Fixpoint join (sep : str) (parts : list str) : str :=
  match parts with
  | [] => []
  | [p] => p
  | p :: rest => p ++ sep ++ join sep rest
  end.

Definition _compose_speak_text (it : Item) (include_summary : bool) : str :=
  let parts := [it_cat it ++ py ". " ++ it_src_code it ++ py ". " ++ it_title it ++ py "."] in
  let parts :=
    if include_summary && negb (is_empty (it_summary it))
    then parts ++ [it_summary it] else parts in
  join (py " ") parts.

(** [speak_async], on the list of the commands put on the queue so far. *)
Definition speak_async (text : str) (q : list Command) : list Command :=
  let text := strip text in
  if is_empty text then q else q ++ [Speak text].

(** The three flags of the configuration the latch reads. *)
Record Flags : Type := {
  speak_newest_headline_on_change : bool;
  speak_on_start : bool;
  speak_include_summary : bool;
}.

Definition FLAGS : Flags :=
  {| speak_newest_headline_on_change := AUTO_SPEAK_NEWEST_HEADLINE_ON_CHANGE;
     speak_on_start := AUTO_SPEAK_ON_START;
     speak_include_summary := AUTO_SPEAK_INCLUDE_SUMMARY |}.

Record Latch : Type := {
  _first_load_done : bool;
  _last_newest_headline_id : option str;
}.

(** The latch as [RSSDOSApp.__init__] sets it. *)
Definition latch0 : Latch :=
  {| _first_load_done := false; _last_newest_headline_id := None |}.

Definition _auto_speak_newest_headline_if_changed (flags : Flags)
    (_headline_items : list Item) (st : Latch) (q : list Command) : Latch * list Command :=
  if negb (speak_newest_headline_on_change flags) then
    ({| _first_load_done := true;
        _last_newest_headline_id := _last_newest_headline_id st |}, q)
  else
    match _headline_items with
    | [] =>
        ({| _first_load_done := true;
            _last_newest_headline_id := _last_newest_headline_id st |}, q)
    | newest :: _ =>
        let newest_id := it_id newest in
        if negb (_first_load_done st) then
          ({| _first_load_done := true; _last_newest_headline_id := Some newest_id |},
           if speak_on_start flags
           then speak_async (_compose_speak_text newest (speak_include_summary flags)) q
           else q)
        else if negb (is_empty newest_id)
                && negb (bool_decide (newest_id = default [] (_last_newest_headline_id st)))
        then
          ({| _first_load_done := true; _last_newest_headline_id := Some newest_id |},
           speak_async (_compose_speak_text newest (speak_include_summary flags)) q)
        else (st, q)
    end.

(** The latch fed the headline lists of successive passes. *)
Definition passes (flags : Flags) (lists : list (list Item)) (st : Latch)
    (q : list Command) : Latch * list Command :=
  foldl (λ s items, _auto_speak_newest_headline_if_changed flags items (fst s) (snd s))
        (st, q) lists.

(** The text the worker is given for an item. *)
Definition spoken (flags : Flags) (it : Item) : Command :=
  Speak (strip (_compose_speak_text it (speak_include_summary flags))).

Definition headline (id title : string) : Item :=
  {| it_id := py id; it_epoch := 1793613600; it_ts := py "10:00"; it_cat := py "NEWS";
     it_src := py "CBC Top Stories"; it_src_code := py "CBC"; it_title := py title;
     it_summary := []; it_url := py id; it_domain := py "cbc.ca"; it_is_new := true |}.

Definition headline_A : Item := headline "https://www.cbc.ca/news/a" "Headline A".
Definition headline_B : Item := headline "https://www.cbc.ca/news/b" "Headline B".

(* ===================================================================== *)
(** * More of the pass: requests, counts, a second pass *)
(* ===================================================================== *)



(** An item as a later pass builds it once its id is in the ledger. *)
Definition seen_again (it : Item) : Item :=
  {| it_id := it_id it; it_epoch := it_epoch it; it_ts := it_ts it; it_cat := it_cat it;
     it_src := it_src it; it_src_code := it_src_code it; it_title := it_title it;
     it_summary := it_summary it; it_url := it_url it; it_domain := it_domain it;
     it_is_new := false |}.


(** The world after the first sample pass. *)
Definition world_after_pass : World := snd (fetch_all_on env_mixed FEEDS true world0).

(* ===================================================================== *)
(** * The feed parser *)
(* ===================================================================== *)


(** An element of the tree [ET.fromstring] returns: its tag (with the
    namespace in braces in front, as ElementTree writes it), its
    attributes, its text ([el.text], the empty string standing for [None]
    as well) and its child elements in document order. *)
Inductive Element : Type :=
| Elem (tag : str) (attrib : gmap str str) (text : str) (children : list Element).

Definition tag (e : Element) : str := match e with Elem t _ _ _ => t end.
Definition attrib (e : Element) : gmap str str := match e with Elem _ a _ _ => a end.
Definition text (e : Element) : str := match e with Elem _ _ x _ => x end.
Definition children (e : Element) : list Element := match e with Elem _ _ _ cs => cs end.

(** [s.endswith(suffix)] *)
Definition endswith (suffix s : str) : bool := startswith (reverse suffix) (reverse s).

(** [e.find(name)] for a plain tag name: the first child with that tag. *)
Definition find (name : str) (e : Element) : option Element :=
  List.find (λ c, bool_decide (tag c = name)) (children e).




(** [next((c for c in e if c.tag.lower().endswith(suffix)), None)], and
    then [el.text if el is not None and el.text else ""]. *)
Definition child_ending (suffix : str) (e : Element) : option Element :=
  List.find (λ c, endswith suffix (lower (tag c))) (children e).

Definition child_text (suffix : str) (e : Element) : str :=
  match child_ending suffix e with Some c => text c | None => [] end.

(** Whether the loop over the children of an entry takes the [href] of
    [c] as the link. *)
Definition is_alternate_link (c : Element) : bool :=
  endswith (py "link") (lower (tag c))
  && (let href := strip (default [] (attrib c !! py "href")) in
      let rel := lower (strip (default [] (attrib c !! py "rel"))) in
      negb (is_empty href) && (is_empty rel || bool_decide (rel = py "alternate"))).

(** The loop that looks for the link of an Atom entry. *)
Fixpoint atom_link (cs : list Element) : str :=
  match cs with
  | [] => []
  | c :: cs' =>
      if is_alternate_link c then strip (default [] (attrib c !! py "href"))
      else atom_link cs'
  end.


(** The record of an Atom entry. *)
Definition atom_record (e : Element) : RawRecord :=
  {| p_title := child_text (py "title") e;
     p_url := atom_link (children e);
     p_summary := str_or (child_text (py "summary") e) (child_text (py "content") e);
     p_date := str_or (child_text (py "updated") e) (child_text (py "published") e) |}.




Definition link_to (rel href : string) : Element :=
  Elem (py "{http://www.w3.org/2005/Atom}link")
       (<[py "rel" := py rel]> (<[py "href" := py href]> ∅)) [] [].

(* ===================================================================== *)
(** * More of the worker *)
(* ===================================================================== *)

(** The text the worker speaks for the payload of a "speak" command, if
    any: the payload trimmed, cut to 2490 code points and the ellipsis
    when it has more than 2500; nothing for a blank payload. *)
Definition spoken_text (payload : str) : option str :=
  let text := strip payload in
  if is_empty text then None
  else Some (if 2500 <? len text then take 2490 text ++ [ELLIPSIS] else text).

(** The texts to speak for a list of commands. *)
Definition speak_texts (cmds : list Command) : list str :=
  omap (λ c, match c with Speak payload => spoken_text payload | _ => None end) cmds.

(** The commands put on the queue by a list of actions. *)
Definition puts (actions : list Action) : list Command :=
  omap (λ a, match a with Put c => Some c | _ => None end) actions.

(** The texts taken from the queue and not started yet, followed by those
    still on the queue. *)
Definition pending (st : Worker) : list str :=
  match pc st with Launching text => [text] | _ => [] end ++ speak_texts (_q st).

(** The actions during which no speech process ends and no call raises. *)
Definition quiet (a : Action) : bool :=
  match a with Put _ | ClearAlive | Work => true | Ended _ | WorkRaise => false end.

(** [shutdown]: [self._alive = False], then [stop()], then the "__quit__"
    command is put. *)
Definition shutdown : list Action := [ClearAlive; Put Stop; Put Quit].

(** The speech process the thread waits for, if any, ends, and the thread
    advances. *)
Definition round (st : Worker) : Worker :=
  step Work (match pc st with Waiting p => step (Ended p) st | _ => st end).

Fixpoint rounds (n : nat) (st : Worker) : Worker :=
  match n with
  | O => st
  | S n' => rounds n' (round st)
  end.

(* ===================================================================== *)
(** * The view: filters, headlines, rows, and the loading guard *)
(* ===================================================================== *)

Definition CATEGORY_KEYS : list str :=
  map py ["ECONOMY"; "FINANCE"; "TRADE"; "TECH"; "SCIENCE"; "RESEARCH"; "WEATHER";
          "WORLD"; "NEWS"]%string.

Definition HEADLINE_CATS : gset str := list_to_set CATEGORY_KEYS.
Definition HEADLINE_COUNT : nat := 10.

(** What the filters of the app read: [self.active_cats],
    [self.group_by_cat] and [self.filter_text]. *)
Record View : Type := {
  active_cats : gset str;
  group_by_cat : bool;
  filter_text : str;
}.

(** The view [RSSDOSApp.__init__] sets. *)
Definition view0 : View :=
  {| active_cats := list_to_set CATEGORY_KEYS; group_by_cat := false; filter_text := [] |}.

Definition _passes_filters (v : View) (it : Item) : bool :=
  if negb (bool_decide (active_cats v = ∅)) && negb (bool_decide (it_cat it ∈ active_cats v))
  then false
  else if is_empty (filter_text v) then true
  else
    let blob := lower (it_title it ++ py " " ++ it_summary it ++ py " "
                       ++ it_src it ++ py " " ++ it_domain it) in
    contains (filter_text v) blob.

Definition _toggle_cat (cat : str) (v : View) : View :=
  {| active_cats :=
       if bool_decide (cat ∈ active_cats v) then active_cats v ∖ {[cat]}
       else {[cat]} ∪ active_cats v;
     group_by_cat := group_by_cat v; filter_text := filter_text v |}.

Definition _toggle_all (v : View) : View :=
  {| active_cats :=
       if negb (bool_decide (active_cats v = ∅)) then ∅ else list_to_set CATEGORY_KEYS;
     group_by_cat := group_by_cat v; filter_text := filter_text v |}.

(** The list [_render_headlines] stores in [self._headline_items]. *)
Definition _render_headlines (v : View) (items : list Item) : list Item :=
  let candidates :=
    List.filter (λ it, bool_decide (it_cat it ∈ HEADLINE_CATS) && _passes_filters v it) items in
  take HEADLINE_COUNT (sort_desc candidates).

(** A row of [self.display_rows]. *)
Inductive DisplayRow : Type :=
| HeaderRow (cat : str) (count : nat)
| ItemRow (it : Item).

(** The rows [_rebuild_display] builds. *)
Definition _rebuild_display (v : View) (items : list Item) : list DisplayRow :=
  let filtered := List.filter (_passes_filters v) items in
  if group_by_cat v then
    flat_map (λ cat,
      let grp := List.filter (λ it, bool_decide (it_cat it = cat)) filtered in
      match grp with
      | [] => []
      | _ => HeaderRow cat (length grp) :: map ItemRow (sort_desc grp)
      end) CATEGORY_KEYS
  else map ItemRow filtered.

(** The items of a list of rows, in order. *)
Definition row_items (rows : list DisplayRow) : list Item :=
  omap (λ r, match r with ItemRow it => Some it | HeaderRow _ _ => None end) rows.

(** The loading of the app: the flag [self._loading], the fetch threads
    started and not finished (each with its [force_refresh]), and the
    results put on [self._q] and not polled yet (the [force_refresh] of the
    thread standing for its result). *)
Record Loading : Type := {
  _loading : bool;
  fetching : list bool;
  delivered : list bool;
}.

Definition loading0 : Loading := {| _loading := false; fetching := []; delivered := [] |}.

(** [_load(force_refresh)] *)
Definition _load (force_refresh : bool) (s : Loading) : Loading :=
  if _loading s then s
  else {| _loading := true; fetching := fetching s ++ [force_refresh];
          delivered := delivered s |}.

(** [_auto_refresh_tick] *)
Definition _auto_refresh_tick (s : Loading) : Loading :=
  if negb (_loading s) then _load true s else s.

(** A fetch thread ends: [_worker_fetch] puts its result on the queue. *)
Definition _worker_fetch_done (s : Loading) : Loading :=
  match fetching s with
  | [] => s
  | f :: rest => {| _loading := _loading s; fetching := rest; delivered := delivered s ++ [f] |}
  end.

(** [_poll_queue]: nothing to get, or a result is taken and [_loading]
    cleared. *)
Definition _poll_queue (s : Loading) : Loading :=
  match delivered s with
  | [] => s
  | _ :: rest => {| _loading := false; fetching := fetching s; delivered := rest |}
  end.

Inductive LoadEvent : Type :=
| KeyRefresh              (* R, and C after [clear_cache]: [_load(True)] *)
| AutoTick                (* [_auto_refresh_tick] *)
| FetchDone               (* a fetch thread ends *)
| Poll.                   (* [_poll_queue] runs *)

Definition load_step (s : Loading) (ev : LoadEvent) : Loading :=
  match ev with
  | KeyRefresh => _load true s
  | AutoTick => _auto_refresh_tick s
  | FetchDone => _worker_fetch_done s
  | Poll => _poll_queue s
  end.

(** The app after its initial [_load(False)] and a list of events. *)
Definition load_run (events : list LoadEvent) : Loading :=
  foldl load_step (_load false loading0) events.

(** What the guard of [_load] keeps: while [_loading] is set, one fetch is
    running or one result is waiting to be polled; otherwise none. *)
Definition one_load (s : Loading) : Prop :=
  if _loading s then (length (fetching s) + length (delivered s) = 1)%nat
  else fetching s = [] ∧ delivered s = [].




(* ===================================================================== *)
(** * Theorems *)
(* ===================================================================== *)

(* --------------------------------------------------------------------- *)
(** ** Facts about stripping and truncation *)
(* --------------------------------------------------------------------- *)

Lemma rstrip_length (s : str) : (length (rstrip s) <= length s)%nat.
Proof.
  induction s as [|c s IH]; simpl; [lia|].
  destruct (rstrip s) as [|d r]; simpl in *.
  - destruct (isspace c); simpl; lia.
  - lia.
Qed.

Lemma rstrip_nil_iff (s : str) : rstrip s = [] ↔ forallb isspace s = true.
Proof.
  induction s as [|c s IH]; simpl; [done|].
  destruct (rstrip s) as [|d r] eqn:E.
  - destruct (isspace c); simpl; [|split; intros; discriminate].
    split; intros _; [by apply IH | done].
  - split; [discriminate|].
    intros H. apply andb_true_iff in H as [_ H]. apply IH in H. discriminate.
Qed.

(** [rstrip] keeps a string whose last code point is not white space. *)
Lemma rstrip_snoc (s : str) (c : N) : isspace c = false → rstrip (s ++ [c]) = s ++ [c].
Proof.
  intros Hc. induction s as [|d s IH]; simpl.
  - by rewrite Hc.
  - rewrite IH. destruct (s ++ [c]) eqn:E; [|done].
    by destruct s.
Qed.

Lemma truncate_within (s : str) (n : Z) : len (strip s) <= n → _truncate s n = strip s.
Proof.
  intros H. unfold _truncate. destruct (Z.leb_spec (len (strip s)) n); [done | lia].
Qed.


Lemma truncate_le_cap (s : str) (n : Z) : 1 <= n → len (_truncate s n) <= n.
Proof.
  intros Hn. unfold _truncate.
  destruct (Z.leb_spec (len (strip s)) n) as [H|H]; [done|].
  unfold len in *. rewrite length_app. simpl.
  pose proof (rstrip_length (take (Z.to_nat (Z.max 0 (n - 1))) (strip s))) as Hr.
  rewrite length_take in Hr. lia.
Qed.




(* --------------------------------------------------------------------- *)
(** ** The domain of a URL *)
(* --------------------------------------------------------------------- *)

Lemma domain_from_url_unfold (url : str) :
  _domain_from_url url =
  match strip url with
  | [] => []
  | _ => replace (py "www.") [] (lower (host_of_url url))
  end.
Proof. reflexivity. Qed.

(** C9 (defect): [replace] removes every occurrence of "www." in the host,
    not only the leading one: the host [awww.example.com] becomes
    [aexample.com], where the specified domain is [awww.example.com]. *)
Theorem domain_inner_www_removed :
  let url := py "https://awww.example.com/story" in
  host_of_url url = py "awww.example.com" ∧
  _domain_from_url url = py "aexample.com" ∧
  domain_as_specified url = py "awww.example.com" ∧
  _domain_from_url (py "https://www.example.com/story") = py "example.com" ∧
  _domain_from_url (py "HTTP://News.Example.COM/a/b") = py "news.example.com" ∧
  _domain_from_url (py "   ") = [].
Proof. by vm_compute. Qed.


(** Where the host holds "www." at its start only, or not at all, the
    domain is the specified one. *)
Lemma replace_from_skip (old new : str) (k : nat) (s : str) :
  replace_from old new k s = replace_from old new 0 (drop k s).
Proof.
  revert k. induction s as [|c s IH]; intros [|k]; try done.
  simpl. by rewrite IH.
Qed.

Lemma replace_absent (old new s : str) : contains old s = false → replace old new s = s.
Proof.
  unfold contains, replace. induction s as [|c s IH]; [done|].
  cbn [split1 replace_from].
  destruct (startswith old (c :: s)); [done|].
  destruct (split1 old s) as [a b]. simpl in *. intros H. by rewrite IH.
Qed.

Lemma replace_prefix (old s : str) :
  old ≠ [] → startswith old s = true →
  replace old [] s = replace old [] (drop (length old) s).
Proof.
  intros Hold Hs. unfold replace. destruct s as [|c s].
  - by destruct old.
  - cbn [replace_from]. rewrite Hs. simpl. rewrite replace_from_skip.
    destruct old as [|o old]; [done|]. simpl. by rewrite Nat.sub_0_r.
Qed.

Lemma domain_as_specified_when_no_inner_www (url : str) :
  contains (py "www.") (domain_as_specified url) = false →
  _domain_from_url url = domain_as_specified url.
Proof.
  rewrite domain_from_url_unfold. unfold domain_as_specified, removeprefix.
  destruct (strip url); [done|].
  destruct (startswith (py "www.") (lower (host_of_url url))) eqn:E; intros H.
  - rewrite replace_prefix by done. by apply replace_absent.
  - by apply replace_absent.
Qed.

(* --------------------------------------------------------------------- *)
(** ** The loop over the URLs and the loop over the feeds *)
(* --------------------------------------------------------------------- *)

Lemma try_urls_outcome env seen cat name urls st w :
  fst (try_urls env seen cat name urls st w) =
  match outcome env urls (loc_last_err st) with
  | Won u parsed =>
      {| loc_items := loc_items st ++ map (make_item env seen cat name) parsed;
         loc_used_url := u; loc_last_err := [];
         loc_count := loc_count st + Z.of_nat (length parsed) |}
  | Lost e =>
      {| loc_items := loc_items st; loc_used_url := loc_used_url st;
         loc_last_err := e; loc_count := loc_count st |}
  end.
Proof.
  revert st w. induction urls as [|u urls IH]; intros st w; simpl.
  - by destruct st.
  - destruct (attempt env u) as [parsed|e]; [done|]. by rewrite IH.
Qed.

Lemma same_files_refl w : same_files w w.
Proof. by repeat split. Qed.

Lemma same_files_trans w1 w2 w3 : same_files w1 w2 → same_files w2 w3 → same_files w1 w3.
Proof. unfold same_files. intros (?&?&?&?&?) (?&?&?&?&?). repeat split; congruence. Qed.

Lemma same_files_emit ev w : same_files w (emit ev w).
Proof. by repeat split. Qed.

Lemma try_urls_same_files env seen cat name urls st w :
  same_files w (snd (try_urls env seen cat name urls st w)).
Proof.
  revert st w. induction urls as [|u urls IH]; intros st w; simpl.
  - apply same_files_refl.
  - destruct (attempt env u) as [parsed|e]; simpl.
    + apply same_files_emit.
    + eapply same_files_trans; [apply (same_files_emit (EvHttpGet u))|apply IH].
Qed.

Lemma outcome_lost_nonempty env urls e0 e :
  outcome env urls e0 = Lost e → e = e0 ∨ e ≠ [].
Proof.
  revert e0. induction urls as [|u urls IH]; intros e0; simpl.
  - intros [= <-]. by left.
  - destruct (attempt env u) as [parsed|x]; [done|].
    intros H. apply IH in H as [->|H]; right; [|done].
    unfold fmt_exc. by destruct (exn_type x).
Qed.

Lemma fetch_feed_spec env seen f items statuses w :
  fst (fetch_feed env seen f items statuses w) =
  (items ++ contribution env seen f, statuses ++ [feed_status env f]).
Proof.
  unfold fetch_feed, contribution, feed_status.
  pose proof (try_urls_outcome env seen (f_cat f) (f_name f) (f_urls f)
    {| loc_items := items; loc_used_url := []; loc_last_err := []; loc_count := 0 |} w) as H.
  destruct (try_urls _ _ _ _ _ _ _) as [st w']. simpl in H. subst st.
  destruct (outcome env (f_urls f) []) as [u parsed|e] eqn:E; simpl.
  - rewrite andb_true_r, Z.add_0_l. by destruct (0 <? Z.of_nat (length parsed)).
  - by rewrite app_nil_r.
Qed.

Lemma fetch_feed_same_files env seen f items statuses w :
  same_files w (snd (fetch_feed env seen f items statuses w)).
Proof.
  unfold fetch_feed.
  pose proof (try_urls_same_files env seen (f_cat f) (f_name f) (f_urls f)
    {| loc_items := items; loc_used_url := []; loc_last_err := []; loc_count := 0 |} w) as H.
  by destruct (try_urls _ _ _ _ _ _ _) as [st w'].
Qed.

Lemma fetch_feeds_spec env seen feeds items statuses w :
  fst (fetch_feeds env seen feeds items statuses w) =
  (items ++ merged env seen feeds, statuses ++ map (feed_status env) feeds).
Proof.
  revert items statuses w. induction feeds as [|f feeds IH]; intros items statuses w; simpl.
  - by rewrite !app_nil_r.
  - pose proof (fetch_feed_spec env seen f items statuses w) as H.
    destruct (fetch_feed env seen f items statuses w) as [[items' statuses'] w'].
    simpl in H. injection H as -> ->. rewrite IH. unfold merged. simpl.
    by rewrite <- !app_assoc.
Qed.

Lemma fetch_feeds_same_files env seen feeds items statuses w :
  same_files w (snd (fetch_feeds env seen feeds items statuses w)).
Proof.
  revert items statuses w. induction feeds as [|f feeds IH]; intros items statuses w; simpl.
  - apply same_files_refl.
  - pose proof (fetch_feed_same_files env seen f items statuses w) as H.
    destruct (fetch_feed env seen f items statuses w) as [[items' statuses'] w'].
    eapply same_files_trans; [exact H|apply IH].
Qed.

(** The value of a live pass: the merged list sorted and cut, and one status
    per feed, unless the write of the cache raises. *)
Lemma live_pass_value env feeds w :
  fst (live_pass env feeds w) =
  match cache_write_exn w with
  | None =>
      Ok (take MAX_ITEMS_TOTAL (sort_desc (merged env (seen_at_start w) feeds)),
          map (feed_status env) feeds, py "live")
  | Some e => Raise e
  end.
Proof.
  unfold live_pass, seen_at_start.
  assert (Hls : same_files w (snd (load_seen w))).
  { unfold load_seen. simpl. by destruct (seen_file w). }
  destruct (load_seen w) as [seen w1]. simpl in *.
  pose proof (fetch_feeds_spec env seen feeds [] [] w1) as Hv.
  pose proof (fetch_feeds_same_files env seen feeds [] [] w1) as Hw.
  destruct (fetch_feeds env seen feeds [] [] w1) as [[items statuses] w2].
  simpl in Hv, Hw. injection Hv as -> ->.
  unfold save_cache, save_seen.
  destruct Hls as (_&_&Hc1&Hs1&_), Hw as (_&_&Hc2&Hs2&_).
  destruct (seen_write_exn w2); simpl; rewrite Hc2, Hc1; by destruct (cache_write_exn w).
Qed.

(* --------------------------------------------------------------------- *)
(** ** The stable descending sort *)
(* --------------------------------------------------------------------- *)

Lemma sort_key_epoch (x : Item) : (sort_key x == it_epoch x)%Q.
Proof.
  unfold sort_key. destruct (Qeq_bool (it_epoch x) 0) eqn:E; [|reflexivity].
  apply Qeq_bool_iff in E. by symmetry.
Qed.

Lemma insert_desc_perm (x : Item) (l : list Item) : insert_desc x l ≡ₚ x :: l.
Proof.
  induction l as [|y l IH]; simpl; [done|].
  destruct (Qle_bool (sort_key y) (sort_key x)); [done|].
  rewrite IH. apply perm_swap.
Qed.

Lemma sort_desc_perm (l : list Item) : sort_desc l ≡ₚ l.
Proof.
  induction l as [|x l IH]; simpl; [done|].
  by rewrite insert_desc_perm, IH.
Qed.

Lemma insert_desc_sorted (x : Item) (l : list Item) :
  StronglySorted epoch_ge l → StronglySorted epoch_ge (insert_desc x l).
Proof.
  induction 1 as [|y l Hl IH Hy]; simpl.
  - by repeat constructor.
  - destruct (Qle_bool (sort_key y) (sort_key x)) eqn:E.
    + apply Qle_bool_iff in E. rewrite !sort_key_epoch in E.
      constructor; [by constructor|].
      constructor; [exact E|].
      eapply Forall_impl; [exact Hy|]. unfold epoch_ge. intros z Hz.
      eapply Qle_trans; [exact Hz|exact E].
    + assert (Hlt : (it_epoch x < it_epoch y)%Q).
      { apply Qnot_le_lt. intros Hle. rewrite <- !sort_key_epoch in Hle.
        apply Qle_bool_iff in Hle. congruence. }
      constructor; [exact IH|].
      rewrite insert_desc_perm. constructor; [|exact Hy].
      unfold epoch_ge. by apply Qlt_le_weak.
Qed.

Lemma sort_desc_sorted (l : list Item) : StronglySorted epoch_ge (sort_desc l).
Proof.
  induction l as [|x l IH]; simpl; [constructor|]. by apply insert_desc_sorted.
Qed.

(** Stability: the items of one epoch come out in the order they went in. *)
Lemma insert_desc_stable (k : Q) (x : Item) (l : list Item) :
  with_epoch k (insert_desc x l) = with_epoch k (x :: l).
Proof.
  unfold with_epoch. induction l as [|y l IH]; [done|].
  cbn [insert_desc]. destruct (Qle_bool (sort_key y) (sort_key x)) eqn:E; [done|].
  cbn [List.filter] in *. rewrite IH.
  destruct (Qeq_bool (it_epoch y) k) eqn:Ey; [|done].
  destruct (Qeq_bool (it_epoch x) k) eqn:Ex; [|done].
  apply Qeq_bool_iff in Ex, Ey.
  assert (Qle_bool (sort_key y) (sort_key x) = true); [|congruence].
  apply Qle_bool_iff. rewrite !sort_key_epoch, Ex, Ey. apply Qle_refl.
Qed.

Lemma sort_desc_stable (k : Q) (l : list Item) :
  with_epoch k (sort_desc l) = with_epoch k l.
Proof.
  induction l as [|x l IH]; [done|].
  cbn [sort_desc foldr]. rewrite insert_desc_stable.
  unfold with_epoch in *. cbn [List.filter]. fold (sort_desc l). by rewrite IH.
Qed.

Lemma with_epoch_take (k : Q) (n : nat) (l : list Item) :
  with_epoch k (take n l) `prefix_of` with_epoch k l.
Proof.
  unfold with_epoch. rewrite <- (take_drop n l) at 2.
  rewrite List.filter_app. by eexists.
Qed.

Lemma StronglySorted_take {A} (R : relation A) (n : nat) (l : list A) :
  StronglySorted R l → StronglySorted R (take n l).
Proof.
  intros H. rewrite <- (take_drop n l) in H. by apply StronglySorted_app_1_l in H.
Qed.

Lemma StronglySorted_lookup_lt {A} (R : relation A) (l : list A) (i j : nat) (x y : A) :
  StronglySorted R l → (i < j)%nat → l !! i = Some x → l !! j = Some y → R x y.
Proof.
  intros H. revert i j. induction H as [|z l Hl IH Hz]; intros i j Hij Hi Hj; [done|].
  destruct i as [|i], j as [|j]; try lia; simpl in *.
  - injection Hi as ->. rewrite Forall_forall in Hz. apply Hz.
    by eapply list_elem_of_lookup_2.
  - apply (IH i j); [lia|done..].
Qed.

Lemma cut_sorted_submseteq (n : nat) (l : list Item) : take n (sort_desc l) ⊆+ l.
Proof.
  rewrite <- (sort_desc_perm l) at 2. apply sublist_submseteq, sublist_take.
Qed.



(** The list a stable descending sort returns is determined: two sorted
    lists with the same items of every epoch, in the same order, are equal.
    So [sort_desc] returns what any stable sort by the key returns. *)
Lemma with_epoch_head (x : Item) (l : list Item) :
  with_epoch (it_epoch x) (x :: l) = x :: with_epoch (it_epoch x) l.
Proof.
  unfold with_epoch. cbn [List.filter].
  by rewrite (proj2 (Qeq_bool_iff _ _) (Qeq_refl (it_epoch x))).
Qed.

Lemma with_epoch_elem_of (k : Q) (x : Item) (l : list Item) : x ∈ with_epoch k l → x ∈ l.
Proof. unfold with_epoch. rewrite !list_elem_of_In, filter_In. tauto. Qed.

Lemma sorted_same_epochs_eq (l1 l2 : list Item) :
  StronglySorted epoch_ge l1 → StronglySorted epoch_ge l2 →
  (∀ k, with_epoch k l1 = with_epoch k l2) → l1 = l2.
Proof.
  intros H1. revert l2. induction H1 as [|x l1 Hs1 IH Hx]; intros l2 H2 Heq.
  - destruct l2 as [|y l2]; [done|].
    specialize (Heq (it_epoch y)). by rewrite with_epoch_head in Heq.
  - destruct H2 as [|y l2 Hs2 Hy].
    { specialize (Heq (it_epoch x)). by rewrite with_epoch_head in Heq. }
    assert (Hxy : Qeq_bool (it_epoch y) (it_epoch x) = true).
    { destruct (Qeq_bool (it_epoch y) (it_epoch x)) eqn:E; [done|exfalso].
      assert (Hle1 : (it_epoch x <= it_epoch y)%Q).
      { pose proof (Heq (it_epoch x)) as H. rewrite with_epoch_head in H.
        unfold with_epoch in H at 2. cbn [List.filter] in H. rewrite E in H.
        rewrite Forall_forall in Hy. apply Hy.
        apply (with_epoch_elem_of (it_epoch x)). unfold with_epoch. rewrite <- H. left. }
      assert (Hle2 : (it_epoch y <= it_epoch x)%Q).
      { pose proof (Heq (it_epoch y)) as H. rewrite (with_epoch_head y) in H.
        unfold with_epoch in H at 1. cbn [List.filter] in H.
        destruct (Qeq_bool (it_epoch x) (it_epoch y)) eqn:E'.
        - apply Qeq_bool_iff in E'. rewrite E'. apply Qle_refl.
        - rewrite Forall_forall in Hx. apply Hx.
          apply (with_epoch_elem_of (it_epoch y)). unfold with_epoch. rewrite H. left. }
      assert (Hq : (it_epoch y == it_epoch x)%Q) by by apply Qle_antisym.
      apply Qeq_bool_iff in Hq. congruence. }
    assert (y = x) as ->.
    { pose proof (Heq (it_epoch x)) as H. rewrite with_epoch_head in H.
      unfold with_epoch in H at 2. cbn [List.filter] in H. rewrite Hxy in H.
      congruence. }
    f_equal. apply IH; [done|]. intros k. specialize (Heq k).
    unfold with_epoch in *. cbn [List.filter] in Heq.
    destruct (Qeq_bool (it_epoch x) k); congruence.
Qed.

Lemma stable_sort_is_sort_desc (l sorted : list Item) :
  StronglySorted epoch_ge sorted →
  (∀ k, with_epoch k sorted = with_epoch k l) →
  sorted = sort_desc l.
Proof.
  intros Hs Hst. apply sorted_same_epochs_eq; [done|apply sort_desc_sorted|].
  intros k. by rewrite sort_desc_stable.
Qed.

(* --------------------------------------------------------------------- *)
(** ** The value of [fetch_all] *)
(* --------------------------------------------------------------------- *)

Lemma cache_not_live : py "cache" ≠ py "live".
Proof. intros H. vm_compute in H. discriminate. Qed.

Lemma load_cache_world env w : snd (load_cache env w) = emit EvCacheRead w.
Proof.
  unfold load_cache. simpl. destruct (cache_file w) as [| | |data]; try done.
  destruct (py_float env _) as [ts|]; [|done].
  by destruct (Qle_bool _ _).
Qed.

Lemma live_pass_live env feeds w items statuses prov w' :
  live_pass env feeds w = (Ok (items, statuses, prov), w') →
  items = take MAX_ITEMS_TOTAL (sort_desc (merged env (seen_at_start w) feeds)) ∧
  statuses = map (feed_status env) feeds ∧ prov = py "live".
Proof.
  intros H. pose proof (live_pass_value env feeds w) as Hv. rewrite H in Hv.
  simpl in Hv. destruct (cache_write_exn w); [discriminate|]. by injection Hv as -> -> ->.
Qed.

Lemma seen_at_start_emit ev w : seen_at_start (emit ev w) = seen_at_start w.
Proof. unfold seen_at_start, load_seen. simpl. by destruct (seen_file w). Qed.

(** A result marked "live" is the result of the live pass. *)
Lemma fetch_all_on_live env feeds force_refresh w items statuses w' :
  fetch_all_on env feeds force_refresh w = (Ok (items, statuses, py "live"), w') →
  items = take MAX_ITEMS_TOTAL (sort_desc (merged env (seen_at_start w) feeds)) ∧
  statuses = map (feed_status env) feeds.
Proof.
  unfold fetch_all_on. destruct force_refresh; simpl.
  - intros H. by apply live_pass_live in H as (?&?&_).
  - pose proof (load_cache_world env w) as Hw.
    destruct (load_cache env w) as [cached w1]. simpl in Hw. subst w1.
    assert (Hlive : live_pass env feeds (emit EvCacheRead w)
                    = (Ok (items, statuses, py "live"), w') →
      items = take MAX_ITEMS_TOTAL (sort_desc (merged env (seen_at_start w) feeds)) ∧
      statuses = map (feed_status env) feeds).
    { intros H. apply live_pass_live in H as (?&?&_).
      by rewrite seen_at_start_emit in *. }
    destruct cached as [cached|]; [|exact Hlive].
    destruct (bool_decide (cached = ∅)); [exact Hlive|].
    destruct (cached_items cached); [|discriminate].
    destruct (cached_statuses cached); [|discriminate].
    intros H. exfalso. apply cache_not_live. congruence.
Qed.


Lemma outcome_first_success env pre u post parsed e0 :
  Forall (fails env) pre → attempt env u = Ok parsed →
  outcome env (pre ++ u :: post) e0 = Won u parsed.
Proof.
  revert e0. induction pre as [|v pre IH]; intros e0 Hpre Hu; simpl.
  - by rewrite Hu.
  - apply Forall_cons in Hpre as [[e He] Hpre]. rewrite He. by apply IH.
Qed.

Lemma outcome_won_inv env urls e0 u parsed :
  outcome env urls e0 = Won u parsed →
  ∃ pre post, urls = pre ++ u :: post ∧ Forall (fails env) pre ∧ attempt env u = Ok parsed.
Proof.
  revert e0. induction urls as [|v urls IH]; intros e0; simpl; [done|].
  destruct (attempt env v) as [parsed'|e] eqn:E.
  - intros [= -> ->]. by exists [], urls.
  - intros H. apply IH in H as (pre & post & -> & Hpre & Hu).
    exists (v :: pre), post. split; [done|]. split; [|done].
    constructor; [by exists e|done].
Qed.

(** Every item of the merged list is a record of a winning attempt. *)
Lemma merged_origin env seen feeds it :
  it ∈ merged env seen feeds →
  ∃ f pre u post parsed p,
    f ∈ feeds ∧ f_urls f = pre ++ u :: post ∧ Forall (fails env) pre ∧
    attempt env u = Ok parsed ∧ p ∈ parsed ∧
    it = make_item env seen (f_cat f) (f_name f) p.
Proof.
  unfold merged. rewrite list_elem_of_In, in_flat_map. intros (f & Hf & Hit).
  unfold contribution in Hit.
  destruct (outcome env (f_urls f) []) as [u parsed|e] eqn:E; [|done].
  apply in_map_iff in Hit as (p & <- & Hp).
  apply outcome_won_inv in E as (pre & post & Hurls & Hpre & Hu).
  exists f, pre, u, post, parsed, p. by rewrite !list_elem_of_In.
Qed.


Lemma map_lookup {A B} (f : A → B) (l : list A) (i : nat) :
  map f l !! i = option_map f (l !! i).
Proof. revert i. induction l as [|x l IH]; intros [|i]; simpl; auto. Qed.

(* --------------------------------------------------------------------- *)
(** ** C1: no de-duplication *)
(* --------------------------------------------------------------------- *)




(* --------------------------------------------------------------------- *)
(** ** C2: a source whose URLs all fail *)
(* --------------------------------------------------------------------- *)

Lemma feed_status_lookup env feeds i f :
  feeds !! i = Some f → map (feed_status env) feeds !! i = Some (feed_status env f).
Proof. intros H. by rewrite map_lookup, H. Qed.



(* --------------------------------------------------------------------- *)
(** ** C10: a feed without records *)
(* --------------------------------------------------------------------- *)

(** C10: a feed whose first attempt that does not raise yields no record is
    reported FAIL with an empty error, count 0 and its first configured URL
    as [used_url]; and a status OK always counts at least one item, namely
    the items the feed contributed. *)
Theorem empty_feed_reported_FAIL env feeds force_refresh w items statuses w' i f pre u post :
  fetch_all_on env feeds force_refresh w = (Ok (items, statuses, py "live"), w') →
  feeds !! i = Some f →
  f_urls f = pre ++ u :: post →
  Forall (fails env) pre →
  attempt env u = Ok [] →
  statuses !! i =
    Some {| st_name := f_name f; st_cat := f_cat f; st_status := py "FAIL";
            st_used_url := hd [] (f_urls f); st_error := []; st_count := 0 |} ∧
  (∀ j g st, feeds !! j = Some g → statuses !! j = Some st → st_status st = py "OK" →
     0 < st_count st ∧
     st_count st = Z.of_nat (length (contribution env (seen_at_start w) g))).
Proof.
  intros H Hf Hurls Hpre Hu. apply fetch_all_on_live in H as [_ ->]. split.
  - assert (Ho : outcome env (f_urls f) [] = Won u []).
    { rewrite Hurls. by apply outcome_first_success. }
    rewrite (feed_status_lookup _ _ _ _ Hf). unfold feed_status. by rewrite Ho.
  - intros j g st Hg. rewrite (feed_status_lookup _ _ _ _ Hg). intros [= <-].
    unfold feed_status, contribution.
    destruct (outcome env (f_urls g) []) as [v parsed|e]; simpl.
    + destruct (Z.ltb_spec 0 (Z.of_nat (length parsed))); simpl.
      * intros _. by rewrite length_map.
      * intros Hs. vm_compute in Hs. discriminate.
    + intros Hs. vm_compute in Hs. discriminate.
Qed.

Lemma empty_feed_reported_FAIL_witness :
  ∃ items statuses w',
    fetch_all_on env_mixed FEEDS true world0 = (Ok (items, statuses, py "live"), w') ∧
    attempt env_mixed url_aljazeera = Ok [] ∧
    statuses !! 2%nat =
      Some {| st_name := py "Al Jazeera"; st_cat := py "WORLD"; st_status := py "FAIL";
              st_used_url := url_aljazeera; st_error := []; st_count := 0 |}.
Proof.
  destruct (fetch_all_on env_mixed FEEDS true world0) as [r w'] eqn:E.
  assert (∃ items statuses, r = Ok (items, statuses, py "live")) as (items & statuses & ->).
  { pose proof E as E'. vm_compute in E'. injection E' as <- _. by eexists _, _. }
  exists items, statuses, w'. split; [done|].
  assert (Hu : attempt env_mixed url_aljazeera = Ok []) by by vm_compute.
  split; [exact Hu|].
  destruct (empty_feed_reported_FAIL env_mixed FEEDS true world0 items statuses w' 2%nat
              (feed "WORLD" "Al Jazeera" ["https://www.aljazeera.com/xml/rss/all.xml"%string])
              [] url_aljazeera [] E eq_refl eq_refl (Forall_nil_2 _) Hu) as [Hst _].
  rewrite Hst. by vm_compute.
Defined.

(* --------------------------------------------------------------------- *)
(** ** C4: the order of the returned list *)
(* --------------------------------------------------------------------- *)

(** C4, as stated, fails: an item whose date does not parse (epoch 0) is
    returned before an item dated 31 Dec 1969, whose epoch is negative. *)
Lemma undated_item_not_last :
  ∃ items statuses,
    fst (fetch_all env_old_story true world0) = Ok (items, statuses, py "live") ∧
    map it_id items = [py "https://www.cbc.ca/news/undated";
                       py "https://www.cbc.ca/news/archive-1969"] ∧
    map it_epoch items = [0%Q; (-86400)%Q].
Proof.
  destruct (fetch_all env_old_story true world0) as [r w'] eqn:E.
  vm_compute in E. injection E as <- _.
  eexists _, _. split; [reflexivity|]. split; by vm_compute.
Qed.

Lemma submseteq_elem_of {A} (l k : list A) (x : A) : l ⊆+ k → x ∈ l → x ∈ k.
Proof. intros H Hx. by eapply elem_of_submseteq. Qed.

(** C4 (amended): the list of a live pass is sorted by epoch descending;
    items of equal epoch keep the order in which they were collected; the
    list holds at most 700 items.  An item of epoch 0 comes after every
    item of positive epoch: whatever follows it has an epoch of at most 0.
    It is followed by the items dated before 1970, whose epoch is negative;
    when no collected item has a negative epoch, only items of epoch 0
    follow an item of epoch 0. *)
Theorem live_items_ranked env feeds force_refresh w items statuses w' :
  fetch_all_on env feeds force_refresh w = (Ok (items, statuses, py "live"), w') →
  let collected := merged env (seen_at_start w) feeds in
  StronglySorted epoch_ge items ∧
  (length items ≤ MAX_ITEMS_TOTAL)%nat ∧
  (∀ k, with_epoch k items `prefix_of` with_epoch k collected) ∧
  ((length collected ≤ MAX_ITEMS_TOTAL)%nat → ∀ k, with_epoch k items = with_epoch k collected) ∧
  (∀ i j x y, (i < j)%nat → items !! i = Some x → items !! j = Some y →
     (it_epoch y <= it_epoch x)%Q ∧
     ((it_epoch x == 0)%Q → (it_epoch y <= 0)%Q) ∧
     ((it_epoch x == 0)%Q → Forall (λ z, (0 <= it_epoch z)%Q) collected →
        (it_epoch y == 0)%Q)).
Proof.
  intros H collected. apply fetch_all_on_live in H as [-> _]. fold collected.
  assert (Hsorted : StronglySorted epoch_ge (take MAX_ITEMS_TOTAL (sort_desc collected))).
  { apply StronglySorted_take, sort_desc_sorted. }
  split; [exact Hsorted|]. split; [apply firstn_le_length|]. split; [|split].
  - intros k. rewrite <- (sort_desc_stable k collected). apply with_epoch_take.
  - intros Hle k. rewrite take_ge; [apply sort_desc_stable|].
    by rewrite (Permutation_length (sort_desc_perm collected)).
  - intros i j x y Hij Hx Hy.
    pose proof (StronglySorted_lookup_lt _ _ _ _ _ _ Hsorted Hij Hx Hy) as Hxy.
    unfold epoch_ge in Hxy. split; [exact Hxy|]. split.
    + intros H0. by rewrite <- H0.
    + intros H0 Hpos. apply Qle_antisym; [by rewrite <- H0|].
      rewrite Forall_forall in Hpos. apply Hpos.
      eapply submseteq_elem_of; [apply (cut_sorted_submseteq MAX_ITEMS_TOTAL)|].
      by eapply list_elem_of_lookup_2.
Qed.

Lemma live_items_ranked_witness :
  ∃ items statuses w',
    fetch_all_on env_old_story FEEDS true world0 = (Ok (items, statuses, py "live"), w') ∧
    StronglySorted epoch_ge items ∧ (length items ≤ 700)%nat.
Proof.
  destruct (fetch_all_on env_old_story FEEDS true world0) as [r w'] eqn:E.
  assert (∃ items statuses, r = Ok (items, statuses, py "live")) as (items & statuses & ->).
  { pose proof E as E'. vm_compute in E'. injection E' as <- _. by eexists _, _. }
  exists items, statuses, w'. split; [done|].
  destruct (live_items_ranked _ _ _ _ _ _ _ E) as (Hs & Hl & _).
  by split.
Defined.

(* --------------------------------------------------------------------- *)
(** ** C3: failures of the writes *)
(* --------------------------------------------------------------------- *)

(** [save_seen] swallows the exception of its write. *)
Lemma save_seen_failure_swallowed env feeds w e :
  seen_write_exn w = Some e → cache_write_exn w = None →
  ∃ items statuses, fst (live_pass env feeds w) = Ok (items, statuses, py "live").
Proof. intros _ Hc. rewrite live_pass_value, Hc. by eexists _, _. Qed.

(** [save_cache] has no handler: the exception of its write leaves
    [fetch_all]. *)
Lemma save_cache_failure_raises env feeds w e :
  cache_write_exn w = Some e → fst (fetch_all_on env feeds true w) = Raise e.
Proof. intros Hc. unfold fetch_all_on. simpl. by rewrite live_pass_value, Hc. Qed.

(** C3 (defect): with a cache file that cannot be written, [fetch_all]
    raises the exception of the write instead of returning the items it
    has just collected; with a ledger file that cannot be written it
    returns them, the same as when both writes succeed. *)
Theorem cache_write_failure_escapes :
  fst (fetch_all env_mixed true world_cache_readonly) = Raise PermissionError ∧
  ∃ items statuses,
    fst (fetch_all env_mixed true world0) = Ok (items, statuses, py "live") ∧
    fst (fetch_all env_mixed true world_seen_readonly) = Ok (items, statuses, py "live") ∧
    map it_id items = [py "https://www.cbc.ca/news/story-1"].
Proof.
  split; [by vm_compute|].
  destruct (fetch_all env_mixed true world0) as [r w'] eqn:E.
  vm_compute in E. injection E as <- _.
  eexists _, _. split; [reflexivity|]. split; by vm_compute.
Qed.

(* --------------------------------------------------------------------- *)
(** ** C5: the cache *)
(* --------------------------------------------------------------------- *)

Lemma load_cache_fresh env w data ts :
  cache_file w = CacheDict data → cache_ts_of env data = Some ts →
  (now w - ts <= CACHE_TTL_SECONDS)%Q →
  load_cache env w = (Some data, emit EvCacheRead w).
Proof.
  intros Hf Hts Hage. unfold load_cache. simpl. rewrite Hf.
  unfold cache_ts_of in Hts. rewrite Hts.
  apply Qle_bool_iff in Hage. by rewrite Hage.
Qed.





(* --------------------------------------------------------------------- *)
(** ** A pass, then a call served from the cache *)
(* --------------------------------------------------------------------- *)

Lemma items_of_rows_RowItem (items : list Item) : items_of_rows (map RowItem items) = Ok items.
Proof. induction items as [|it items IH]; simpl; [done|]. by rewrite IH. Qed.

Lemma statuses_of_rows_RowStatus (statuses : list FeedStatus) :
  statuses_of_rows (map RowStatus statuses) = Ok statuses.
Proof. induction statuses as [|st statuses IH]; simpl; [done|]. by rewrite IH. Qed.

(** The snapshot a live pass leaves in the cache file. *)
Lemma live_pass_cache_file env feeds w items statuses prov w1 :
  live_pass env feeds w = (Ok (items, statuses, prov), w1) →
  cache_file w1 = CacheDict (cache_payload env (now w) items statuses).
Proof.
  unfold live_pass.
  assert (Hls : same_files w (snd (load_seen w))).
  { unfold load_seen. simpl. by destruct (seen_file w). }
  destruct (load_seen w) as [seen w0]. simpl in Hls.
  pose proof (fetch_feeds_same_files env seen feeds [] [] w0) as Hw.
  destruct (fetch_feeds env seen feeds [] [] w0) as [[items0 statuses0] w2].
  simpl in Hw. unfold save_cache, save_seen.
  destruct Hls as (_&_&Hc1&_&Hn1), Hw as (_&_&Hc2&_&Hn2).
  destruct (seen_write_exn w2); simpl; rewrite Hc2, Hc1;
    (destruct (cache_write_exn w); [discriminate|]);
    intros [= <- <- _ <-]; simpl; by rewrite Hn2, Hn1.
Qed.

(** After a live pass, a call without [force_refresh] made while the
    snapshot is at most [CACHE_TTL_SECONDS] old returns the items and the
    statuses of that pass, marked "cache". *)
Lemma fetch_all_again_from_cache env feeds force_refresh w items statuses w1 t :
  fetch_all_on env feeds force_refresh w = (Ok (items, statuses, py "live"), w1) →
  (t - now w <= CACHE_TTL_SECONDS)%Q →
  fetch_all_on env feeds false (at_time t w1) =
    (Ok (items, statuses, py "cache"), emit EvCacheRead (at_time t w1)).
Proof.
  intros H Hage.
  assert (Hfile : cache_file w1 = CacheDict (cache_payload env (now w) items statuses)).
  { revert H. unfold fetch_all_on. destruct force_refresh; simpl.
    - apply live_pass_cache_file.
    - pose proof (load_cache_world env w) as Hw.
      destruct (load_cache env w) as [cached w0]. simpl in Hw. subst w0.
      assert (Hlive : live_pass env feeds (emit EvCacheRead w)
                      = (Ok (items, statuses, py "live"), w1) →
                      cache_file w1 = CacheDict (cache_payload env (now w) items statuses)).
      { intros H. apply live_pass_cache_file in H. exact H. }
      destruct cached as [cached|]; [|exact Hlive].
      destruct (bool_decide (cached = ∅)); [exact Hlive|].
      destruct (cached_items cached); [|discriminate].
      destruct (cached_statuses cached); [|discriminate].
      intros H. exfalso. apply cache_not_live. congruence. }
  unfold fetch_all_on. simpl.
  rewrite (load_cache_fresh env (at_time t w1) _ (now w) Hfile eq_refl Hage).
  rewrite bool_decide_eq_false_2.
  - unfold cached_items, cached_statuses.
    change (cache_payload env (now w) items statuses !! "items"%string)
      with (Some (JList (map RowItem items))).
    change (cache_payload env (now w) items statuses !! "statuses"%string)
      with (Some (JList (map RowStatus statuses))).
    simpl. by rewrite items_of_rows_RowItem, statuses_of_rows_RowStatus.
  - intros E. apply (f_equal (λ m, m !! "cache_ts"%string)) in E. discriminate.
Qed.

(** Every item of a pass has an id: the URL, or the composite that holds
    the separators. *)
Lemma make_item_id_nonempty env seen cat name p : it_id (make_item env seen cat name p) ≠ [].
Proof.
  unfold make_item. simpl. unfold str_or. destruct (strip (p_url p)); [|done].
  intros H. apply (f_equal length) in H. rewrite !length_app in H. simpl in H. lia.
Qed.

(* --------------------------------------------------------------------- *)
(** ** C8: the narration worker *)
(* --------------------------------------------------------------------- *)

Lemma kill_proc_running st :
  single_flight st → running (_kill_proc st) = ∅ ∧ _proc (_kill_proc st) = None.
Proof.
  unfold single_flight, _kill_proc.
  destruct (_proc st) as [p|] eqn:Ep; simpl.
  - destruct (pc st); try (intros ->; split; [set_solver|done]).
    intros [Hsub [= <-]]. split; [set_solver|done].
  - destruct (pc st); try (intros ->; by split).
    by intros [_ ?].
Qed.

Lemma kill_proc_pc st : pc (_kill_proc st) = pc st.
Proof. unfold _kill_proc. by destruct (_proc st). Qed.

Lemma kill_proc_q st : _q (_kill_proc st) = _q st.
Proof. unfold _kill_proc. by destruct (_proc st). Qed.

Lemma single_flight_set_q q st : single_flight (set_q q st) ↔ single_flight st.
Proof. done. Qed.

Lemma single_flight_idle c st :
  (∀ p, c ≠ Waiting p) → running st = ∅ → single_flight (set_pc c st).
Proof. intros Hc Hr. unfold single_flight. simpl. by destruct c; try done; destruct (Hc p). Qed.

Lemma single_flight_running st : (∀ p, pc st ≠ Waiting p) → single_flight st → running st = ∅.
Proof. unfold single_flight. intros Hc. by destruct (pc st); try done; destruct (Hc p). Qed.

Lemma worker_step_single_flight raises st :
  single_flight st → single_flight (worker_step raises st).
Proof.
  intros Hinv. unfold worker_step.
  destruct (pc st) as [| | |text|p|] eqn:Epc.
  - pose proof (single_flight_running st) as Hr. rewrite Epc in Hr.
    destruct (_alive st); apply single_flight_idle; try done; by apply Hr.
  - destruct (_q st) as [|[payload| |] q]; [done|..].
    + destruct (is_empty (strip payload)).
      * apply single_flight_idle; [done|]. simpl.
        apply single_flight_running; [by rewrite Epc|done].
      * apply single_flight_idle; [done|].
        by apply kill_proc_running, single_flight_set_q.
    + apply single_flight_idle; [done|]. by apply kill_proc_running, single_flight_set_q.
    + apply single_flight_idle; [done|]. simpl.
      apply single_flight_running; [by rewrite Epc|done].
  - assert (Hr : running st = ∅) by (apply single_flight_running; [by rewrite Epc|done]).
    destruct (_q st) as [|[payload| |] q].
    + by apply single_flight_idle.
    + unfold single_flight. simpl. by rewrite Epc.
    + unfold single_flight. simpl. by rewrite Epc.
    + by apply single_flight_idle.
  - destruct raises.
    + apply single_flight_idle; [done|]. by apply kill_proc_running.
    + assert (Hr : running st = ∅) by (apply single_flight_running; [by rewrite Epc|done]).
      unfold single_flight, launch. simpl. rewrite Hr. split; [set_solver|done].
  - destruct raises.
    + apply single_flight_idle; [done|]. by apply kill_proc_running.
    + case_bool_decide as Hp; [done|].
      apply single_flight_idle; [done|].
      unfold single_flight in Hinv. rewrite Epc in Hinv. set_solver.
  - done.
Qed.

Lemma step_single_flight a st : single_flight st → single_flight (step a st).
Proof.
  destruct a as [c| |p| |]; simpl; try apply worker_step_single_flight; try done.
  unfold single_flight. simpl. destruct (pc st); set_solver.
Qed.

Lemma run_single_flight actions st : single_flight st → single_flight (run actions st).
Proof.
  revert st. induction actions as [|a actions IH]; intros st H; [done|].
  apply IH. by apply step_single_flight.
Qed.

Lemma reachable_single_flight st : reachable st → single_flight st.
Proof. intros [actions ->]. by apply run_single_flight. Qed.

Lemma single_flight_at_most_one st : single_flight st → (size (running st) ≤ 1)%nat.
Proof.
  unfold single_flight. destruct (pc st); try (intros ->; rewrite size_empty; lia).
  intros [Hsub _]. apply subseteq_size in Hsub. by rewrite size_singleton in Hsub.
Qed.

(** The drain loop, when nothing is put on the queue meanwhile. *)
Lemma drain_run st :
  pc st = Draining →
  run (replicate (drain_steps (_q st)) Work) st =
  set_pc (fst (drained (_q st))) (set_q (snd (drained (_q st))) st).
Proof.
  destruct st as [q proc alive c r s]. simpl. intros ->.
  induction q as [|[payload| |] q IH]; try done; simpl in *; by rewrite <- IH.
Qed.

Lemma drained_no_quit q : Quit ∉ q → drained q = (AtLoopHead, []).
Proof.
  induction q as [|[payload| |] q IH]; simpl; intros H; try done.
  - apply IH. set_solver.
  - apply IH. set_solver.
  - destruct H. left.
Qed.

(** C8: in every state the worker can be in, at most one speech process is
    alive, and none unless the worker thread is waiting for it.  When the
    worker has taken a "speak" command no process is alive any more, and
    the new process is started only then, so it is alone.  When it takes a
    "stop" command, no process and no handle remain; the drain loop then
    empties the queue (up to a "__quit__", which ends the thread) and,
    without a "__quit__", the thread is back at the head of its loop with
    an empty queue and no process running. *)
Theorem worker_single_flight st :
  reachable st →
  (size (running st) ≤ 1)%nat ∧
  ((∀ p, pc st ≠ Waiting p) → running st = ∅) ∧
  (∀ payload q, pc st = InGet → _q st = Speak payload :: q →
     running (step Work st) = ∅) ∧
  (∀ text, pc st = Launching text →
     running st = ∅ ∧
     pc (step Work st) = Waiting (length (started st)) ∧
     running (step Work st) = {[length (started st)]} ∧
     started (step Work st) = started st ++ [text]) ∧
  (∀ q, pc st = InGet → _q st = Stop :: q →
     let st1 := step Work st in
     pc st1 = Draining ∧ _q st1 = q ∧ running st1 = ∅ ∧ _proc st1 = None ∧
     let st2 := run (replicate (drain_steps q) Work) st1 in
     running st2 = ∅ ∧ _proc st2 = None ∧
     pc st2 = fst (drained q) ∧ _q st2 = snd (drained q) ∧
     (Quit ∉ q → pc st2 = AtLoopHead ∧ _q st2 = [])).
Proof.
  intros Hreach. pose proof (reachable_single_flight st Hreach) as Hinv.
  split; [by apply single_flight_at_most_one|].
  split; [intros Hc; by apply single_flight_running|].
  split; [|split].
  - intros payload q Hpc Hq.
    pose proof (step_single_flight Work st Hinv) as H'.
    apply single_flight_running; [|exact H'].
    simpl. unfold worker_step. rewrite Hpc, Hq.
    destruct (is_empty (strip payload)); simpl; [done|].
    rewrite ?kill_proc_pc. done.
  - intros text Hpc.
    assert (Hr : running st = ∅) by (apply single_flight_running; [by rewrite Hpc|done]).
    split; [done|]. simpl. unfold worker_step. rewrite Hpc. simpl.
    rewrite Hr. split; [done|]. split; [set_solver|done].
  - intros q Hpc Hq.
    assert (Hst1 : step Work st = set_pc Draining (_kill_proc (set_q q st))).
    { simpl. unfold worker_step. by rewrite Hpc, Hq. }
    destruct (kill_proc_running (set_q q st)) as [Hr Hp]; [done|].
    pose proof (kill_proc_q (set_q q st)) as Hq1. simpl in Hq1.
    cbv zeta. rewrite Hst1.
    pose proof (drain_run (set_pc Draining (_kill_proc (set_q q st))) eq_refl) as Hd.
    simpl in Hd. rewrite Hq1 in Hd. rewrite Hd. simpl.
    repeat (split; [done|]).
    intros Hnq. by rewrite (drained_no_quit q Hnq).
Qed.

(** "x" is spoken, then "y"; "stop" arrives while "y" is spoken and
    another "speak" after it: the actions up to the point where the worker
    is about to take the "stop". *)
Lemma worker_single_flight_witness :
  let st := run [Put (Speak (py "x")); Put (Speak (py "y")); Work; Work; Work;
                 Ended 0%nat; Work; Work; Work; Work; Put Stop; Put (Speak (py "z"));
                 Ended 1%nat; Work; Work] worker0 in
  reachable st ∧ pc st = InGet ∧ _q st = [Stop; Speak (py "z")] ∧
  started st = [py "x"; py "y"] ∧
  (size (running st) ≤ 1)%nat ∧
  let st2 := run (replicate 3 Work) st in
  pc st2 = AtLoopHead ∧ _q st2 = [] ∧ running st2 = ∅.
Proof.
  intros st.
  assert (Hreach : reachable st) by by eexists.
  assert (Hpc : pc st = InGet) by by vm_compute.
  assert (Hq : _q st = [Stop; Speak (py "z")]) by by vm_compute.
  destruct (worker_single_flight st Hreach) as (Hsize & _ & _ & _ & Hstop).
  destruct (Hstop [Speak (py "z")] Hpc Hq) as (_ & _ & _ & _ & Hr & _ & _ & _ & Hidle).
  split; [done|]. split; [done|]. split; [done|].
  split; [by vm_compute|]. split; [done|].
  destruct Hidle as [Hpc2 Hq2].
  { intros H. apply list_elem_of_singleton in H. discriminate. }
  intros st2. by split; [|split].
Defined.

(* --------------------------------------------------------------------- *)
(** ** C7: the auto-narration latch *)
(* --------------------------------------------------------------------- *)

Lemma lstrip_all_space (s : str) : forallb isspace (lstrip s) = true → forallb isspace s = true.
Proof.
  induction s as [|c s IH]; simpl; [done|].
  destruct (isspace c) eqn:E; simpl; [done|]. by rewrite E.
Qed.

Lemma strip_nil_all_space (s : str) : strip s = [] → forallb isspace s = true.
Proof. unfold strip. intros H. by apply lstrip_all_space, rstrip_nil_iff. Qed.

(** The text composed for an item is never blank: it holds full stops. *)
Lemma compose_not_blank (it : Item) (include_summary : bool) :
  is_empty (strip (_compose_speak_text it include_summary)) = false.
Proof.
  destruct (strip _) eqn:E; [|done].
  apply strip_nil_all_space in E. exfalso.
  assert (H : ∃ r, _compose_speak_text it include_summary = it_cat it ++ 46%N :: r).
  { unfold _compose_speak_text.
    destruct (include_summary && negb (is_empty (it_summary it))); simpl.
    - rewrite <- app_assoc. simpl. by eexists.
    - by eexists. }
  destruct H as [r Hr]. rewrite Hr, forallb_app in E.
  apply andb_true_iff in E as [_ E]. simpl in E. discriminate.
Qed.

Lemma speak_async_compose (it : Item) (include_summary : bool) (q : list Command) :
  speak_async (_compose_speak_text it include_summary) q =
  q ++ [Speak (strip (_compose_speak_text it include_summary))].
Proof. unfold speak_async. by rewrite compose_not_blank. Qed.

(** A pass after the first, with a newest headline whose id is not empty
    and differs from the latched one: the id is latched and one "speak" is
    put on the queue. *)
Lemma latch_changed flags x rest st q :
  speak_newest_headline_on_change flags = true →
  _first_load_done st = true →
  it_id x ≠ [] → it_id x ≠ default [] (_last_newest_headline_id st) →
  _auto_speak_newest_headline_if_changed flags (x :: rest) st q =
  ({| _first_load_done := true; _last_newest_headline_id := Some (it_id x) |},
   q ++ [spoken flags x]).
Proof.
  intros Hon Hdone Hne Hdiff. unfold _auto_speak_newest_headline_if_changed.
  rewrite Hon, Hdone. simpl.
  destruct (it_id x) eqn:E; [done|]. simpl.
  rewrite bool_decide_eq_false_2 by done. simpl.
  by rewrite speak_async_compose.
Qed.

(** A pass after the first whose newest headline has the latched id, or an
    empty id: nothing changes. *)
Lemma latch_unchanged flags x rest st q :
  speak_newest_headline_on_change flags = true →
  _first_load_done st = true →
  it_id x = [] ∨ it_id x = default [] (_last_newest_headline_id st) →
  _auto_speak_newest_headline_if_changed flags (x :: rest) st q = (st, q).
Proof.
  intros Hon Hdone H. unfold _auto_speak_newest_headline_if_changed.
  rewrite Hon, Hdone. simpl. destruct H as [->|H]; [done|].
  rewrite (bool_decide_eq_true_2 _ H). by rewrite andb_false_r.
Qed.

(** The first pass with a headline: its id is latched. *)
Lemma latch_first flags x rest st q :
  speak_newest_headline_on_change flags = true →
  speak_on_start flags = false →
  _first_load_done st = false →
  _auto_speak_newest_headline_if_changed flags (x :: rest) st q =
  ({| _first_load_done := true; _last_newest_headline_id := Some (it_id x) |}, q).
Proof.
  intros Hon Hstart Hdone. unfold _auto_speak_newest_headline_if_changed.
  by rewrite Hon, Hstart, Hdone.
Qed.

(** C7: with speak-on-start disabled, five passes whose newest headlines
    have the ids A, A, B, B, A (two different ids, neither empty) put
    exactly two "speak" commands on the queue, the text of the third
    headline on the change to B and the text of the fifth on the change
    back to A; the first pass latches A and speaks nothing.  A pass whose
    newest id is the latched one changes nothing, and a newest headline
    with an empty id never puts a command on the queue. *)
Theorem latch_speaks_on_change flags :
  speak_newest_headline_on_change flags = true →
  speak_on_start flags = false →
  (∀ (A B : str) x1 x2 x3 x4 x5 t1 t2 t3 t4 t5,
     A ≠ [] → B ≠ [] → A ≠ B →
     it_id x1 = A → it_id x2 = A → it_id x3 = B → it_id x4 = B → it_id x5 = A →
     passes flags [x1 :: t1] latch0 [] =
       ({| _first_load_done := true; _last_newest_headline_id := Some A |}, []) ∧
     snd (passes flags [x1 :: t1; x2 :: t2] latch0 []) = [] ∧
     snd (passes flags [x1 :: t1; x2 :: t2; x3 :: t3] latch0 []) = [spoken flags x3] ∧
     snd (passes flags [x1 :: t1; x2 :: t2; x3 :: t3; x4 :: t4] latch0 []) =
       [spoken flags x3] ∧
     snd (passes flags [x1 :: t1; x2 :: t2; x3 :: t3; x4 :: t4; x5 :: t5] latch0 []) =
       [spoken flags x3; spoken flags x5]) ∧
  (∀ st q x rest,
     _first_load_done st = true →
     default [] (_last_newest_headline_id st) = it_id x →
     _auto_speak_newest_headline_if_changed flags (x :: rest) st q = (st, q)) ∧
  (∀ st q x rest,
     it_id x = [] →
     snd (_auto_speak_newest_headline_if_changed flags (x :: rest) st q) = q).
Proof.
  intros Hon Hstart. split; [|split].
  - intros A B x1 x2 x3 x4 x5 t1 t2 t3 t4 t5 HA HB HAB H1 H2 H3 H4 H5.
    unfold passes. simpl.
    rewrite (latch_first flags x1 t1 latch0 [] Hon Hstart eq_refl). simpl.
    rewrite (latch_unchanged flags x2 t2); [|done|done|right; simpl; congruence]. simpl.
    rewrite (latch_changed flags x3 t3); [|done|done|congruence|simpl; congruence]. simpl.
    rewrite (latch_unchanged flags x4 t4); [|done|done|right; simpl; congruence]. simpl.
    rewrite (latch_changed flags x5 t5); [|done|done|congruence|simpl; congruence]. simpl.
    by rewrite H1.
  - intros st q x rest Hdone Hsame. apply latch_unchanged; [done|done|by right].
  - intros st q x rest Hid. destruct (_first_load_done st) eqn:Hdone.
    + rewrite latch_unchanged; [done|done|done|by left].
    + by rewrite latch_first.
Qed.

Lemma latch_speaks_on_change_witness :
  speak_on_start FLAGS = false ∧
  snd (passes FLAGS [[headline_A]; [headline_A]; [headline_B]; [headline_B]; [headline_A]]
         latch0 []) =
    [Speak (py "NEWS. CBC. Headline B."); Speak (py "NEWS. CBC. Headline A.")].
Proof.
  split; [reflexivity|].
  destruct (latch_speaks_on_change FLAGS eq_refl eq_refl) as (H & _ & _).
  assert (HA : it_id headline_A ≠ []) by by vm_compute.
  assert (HB : it_id headline_B ≠ []) by by vm_compute.
  assert (HAB : it_id headline_A ≠ it_id headline_B) by by vm_compute.
  destruct (H (it_id headline_A) (it_id headline_B)
              headline_A headline_A headline_B headline_B headline_A [] [] [] [] []
              HA HB HAB eq_refl eq_refl eq_refl eq_refl eq_refl)
    as (_ & _ & _ & _ & H5).
  rewrite H5. by vm_compute.
Defined.

(* --------------------------------------------------------------------- *)
(** ** The ledger *)
(* --------------------------------------------------------------------- *)

Lemma str_leb_total (a b : str) : str_leb a b = true ∨ str_leb b a = true.
Proof.
  revert b. induction a as [|x a IH]; intros [|y b]; simpl; auto.
  destruct (N.ltb_spec x y), (N.ltb_spec y x), (N.eqb_spec x y), (N.eqb_spec y x);
    simpl; auto; try lia.
Qed.

Lemma str_le_total : Total str_le.
Proof. intros a b. apply str_leb_total. Qed.

(** X1: what [save_seen] writes, [load_seen] reads back: the ledger saved
    is the ledger loaded, and the file holds its ids sorted and without
    repetition. *)
Theorem ledger_round_trip (seen : gset str) (w : World) :
  seen_write_exn w = None →
  fst (load_seen (save_seen seen w)) = seen ∧
  seen_file (save_seen seen w) = SeenList (sorted_ids seen) ∧
  Sorted str_le (sorted_ids seen) ∧
  NoDup (sorted_ids seen).
Proof.
  intros Hw. unfold save_seen, load_seen. rewrite Hw. simpl.
  assert (Hp : sorted_ids seen ≡ₚ elements seen) by apply merge_sort_Permutation.
  split; [|split; [done|split]].
  - rewrite (list_to_set_perm_L _ _ Hp). apply list_to_set_elements_L.
  - apply Sorted_merge_sort, str_le_total.
  - rewrite Hp. apply NoDup_elements.
Qed.

Lemma ledger_round_trip_witness :
  fst (load_seen (save_seen {[py "b"; py "a"]} world0)) = {[py "b"; py "a"]} ∧
  sorted_ids {[py "b"; py "a"]} = [py "a"; py "b"].
Proof.
  destruct (ledger_round_trip {[py "b"; py "a"]} world0 eq_refl) as (H & _ & _ & _).
  split; [exact H|]. by vm_compute.
Defined.

Lemma elem_of_add_seen (x : str) (seen : gset str) (items : list Item) :
  x ∈ add_seen seen items ↔ x ∈ seen ∨ (x ≠ [] ∧ x ∈ map it_id items).
Proof.
  unfold add_seen. revert seen. induction items as [|it items IH]; intros seen; simpl.
  - split; [by left|]. intros [H|[_ H]]; [done|]. by apply elem_of_nil in H.
  - rewrite IH. destruct (it_id it) as [|c s] eqn:E; simpl.
    + split; (intros [H|[Hx H]]; [by left|right; split; [done|]]).
      * by right.
      * apply elem_of_cons in H as [->|H]; done.
    + rewrite elem_of_union, elem_of_singleton. split.
      * intros [[->|H]|[Hx H]]; [right; split; [done|left]|by left|right; split; [done|by right]].
      * intros [H|[Hx H]]; [left; by right|].
        apply elem_of_cons in H as [->|H]; [left; by left|right; by split].
Qed.

Lemma load_seen_same_files w w' : same_files w w' → fst (load_seen w') = fst (load_seen w).
Proof. intros (_&Hs&_). unfold load_seen. simpl. rewrite Hs. by destruct (seen_file w). Qed.

(** The ledger file a live pass leaves when its write succeeds. *)
Lemma live_pass_seen_file env feeds w :
  seen_write_exn w = None →
  seen_file (snd (live_pass env feeds w)) =
  SeenList (sorted_ids (add_seen (seen_at_start w)
              (take MAX_ITEMS_TOTAL (sort_desc (merged env (seen_at_start w) feeds))))).
Proof.
  intros Hsw. unfold live_pass, seen_at_start.
  assert (Hls : same_files w (snd (load_seen w))).
  { unfold load_seen. simpl. by destruct (seen_file w). }
  destruct (load_seen w) as [seen w0]. simpl in *.
  pose proof (fetch_feeds_spec env seen feeds [] [] w0) as Hv.
  pose proof (fetch_feeds_same_files env seen feeds [] [] w0) as Hw.
  destruct (fetch_feeds env seen feeds [] [] w0) as [[items statuses] w2].
  simpl in Hv, Hw. injection Hv as -> ->.
  destruct Hls as (_&_&Hc1&Hs1&_), Hw as (_&_&Hc2&Hs2&_).
  unfold save_cache, save_seen. rewrite Hs2, Hs1, Hsw. simpl.
  by destruct (cache_write_exn w2).
Qed.

Lemma fetch_all_on_live_world env feeds force_refresh w items statuses w' :
  fetch_all_on env feeds force_refresh w = (Ok (items, statuses, py "live"), w') →
  ∃ w0, same_files w w0 ∧ seen_at_start w0 = seen_at_start w ∧
        live_pass env feeds w0 = (Ok (items, statuses, py "live"), w').
Proof.
  unfold fetch_all_on. destruct force_refresh; simpl.
  - intros H. exists w. split; [apply same_files_refl|done].
  - pose proof (load_cache_world env w) as Hw.
    destruct (load_cache env w) as [cached w1]. simpl in Hw. subst w1.
    assert (Hlive : live_pass env feeds (emit EvCacheRead w)
                    = (Ok (items, statuses, py "live"), w') →
      ∃ w0, same_files w w0 ∧ seen_at_start w0 = seen_at_start w ∧
            live_pass env feeds w0 = (Ok (items, statuses, py "live"), w')).
    { intros H. exists (emit EvCacheRead w). split; [apply same_files_emit|].
      split; [apply seen_at_start_emit|done]. }
    destruct cached as [cached|]; [|exact Hlive].
    destruct (bool_decide (cached = ∅)); [exact Hlive|].
    destruct (cached_items cached); [|discriminate].
    destruct (cached_statuses cached); [|discriminate].
    intros H. exfalso. apply cache_not_live. congruence.
Qed.

Lemma merged_ids_nonempty env seen feeds : Forall (λ it, it_id it ≠ []) (merged env seen feeds).
Proof.
  apply Forall_forall. intros it Hit.
  apply merged_origin in Hit as (f & pre & u & post & parsed & p & _ & _ & _ & _ & _ & ->).
  apply make_item_id_nonempty.
Qed.

Lemma ledger_after_live_pass env feeds force_refresh w items statuses w' :
  fetch_all_on env feeds force_refresh w = (Ok (items, statuses, py "live"), w') →
  seen_write_exn w = None →
  seen_at_start w' = seen_at_start w ∪ list_to_set (map it_id items).
Proof.
  intros H Hsw.
  pose proof (fetch_all_on_live _ _ _ _ _ _ _ H) as [Hitems _].
  apply fetch_all_on_live_world in H as (w0 & Hsame & Hseen & H).
  assert (Hsw0 : seen_write_exn w0 = None) by (destruct Hsame as (_&_&_&->&_); done).
  pose proof (live_pass_seen_file env feeds w0 Hsw0) as Hf.
  rewrite H in Hf. simpl in Hf. rewrite Hseen, <- Hitems in Hf.
  assert (Heq : seen_at_start w' = add_seen (seen_at_start w) items).
  { unfold seen_at_start at 1. unfold load_seen. simpl. rewrite Hf. unfold sorted_ids.
    rewrite (list_to_set_perm_L _ _ (merge_sort_Permutation _ _)).
    apply list_to_set_elements_L. }
  assert (Hids : Forall (λ it, it_id it ≠ []) items).
  { rewrite Hitems. eapply Forall_impl with (P := λ it, it ∈ merged env (seen_at_start w) feeds).
    - apply Forall_forall. intros it Hit.
      eapply elem_of_submseteq; [exact Hit|apply cut_sorted_submseteq].
    - intros it Hit. pose proof (merged_ids_nonempty env (seen_at_start w) feeds) as Hn.
      rewrite Forall_forall in Hn. by apply Hn. }
  assert (Hset : seen_at_start w' = seen_at_start w ∪ list_to_set (map it_id items)).
  { rewrite Heq. apply set_eq. intros x.
    rewrite elem_of_add_seen, elem_of_union, elem_of_list_to_set.
    split; [intros [?|[_ ?]]; auto|]. intros [?|Hx]; [by left|right; split; [|done]].
    apply list_elem_of_In, in_map_iff in Hx as (it & <- & Hit).
    rewrite Forall_forall in Hids. apply Hids. by apply list_elem_of_In. }
  exact Hset.
Qed.

Lemma ledger_holds_returned_ids env feeds force_refresh w items statuses w' :
  fetch_all_on env feeds force_refresh w = (Ok (items, statuses, py "live"), w') →
  seen_write_exn w = None →
  Forall (λ it, it_id it ∈ seen_at_start w') items.
Proof.
  intros H Hsw. pose proof (ledger_after_live_pass _ _ _ _ _ _ _ H Hsw) as Hset.
  apply Forall_forall. intros it Hit. rewrite Hset, elem_of_union, elem_of_list_to_set.
  right. apply list_elem_of_In, in_map, list_elem_of_In, Hit.
Qed.

(** X2: a live pass whose write of the ledger succeeds leaves in the
    ledger exactly the ids it started with and the ids of the items it
    returns: the ledger only grows, and every returned item is in it. *)
Theorem ledger_grows_by_returned_ids env feeds force_refresh w items statuses w' :
  fetch_all_on env feeds force_refresh w = (Ok (items, statuses, py "live"), w') →
  seen_write_exn w = None →
  seen_at_start w' = seen_at_start w ∪ list_to_set (map it_id items) ∧
  seen_at_start w ⊆ seen_at_start w' ∧
  Forall (λ it, it_id it ∈ seen_at_start w') items.
Proof.
  intros H Hsw. pose proof (ledger_after_live_pass _ _ _ _ _ _ _ H Hsw) as Hset.
  split; [exact Hset|]. split; [rewrite Hset; set_solver|].
  by apply (ledger_holds_returned_ids env feeds force_refresh w items statuses w').
Qed.

Lemma ledger_grows_by_returned_ids_witness :
  ∃ items statuses w',
    fetch_all_on env_mixed FEEDS true world0 = (Ok (items, statuses, py "live"), w') ∧
    seen_write_exn world0 = None ∧
    Forall (λ it, it_id it ∈ seen_at_start w') items.
Proof.
  destruct (fetch_all_on env_mixed FEEDS true world0) as [r w'] eqn:E.
  assert (∃ items statuses, r = Ok (items, statuses, py "live")) as (items & statuses & ->).
  { pose proof E as E'. vm_compute in E'. injection E' as <- _. by eexists _, _. }
  exists items, statuses, w'. split; [done|]. split; [done|].
  by destruct (ledger_grows_by_returned_ids _ _ _ _ _ _ _ E eq_refl) as (_ & _ & H).
Defined.

Lemma fetch_all_on_forced env feeds w :
  fetch_all_on env feeds true w = live_pass env feeds w.
Proof. done. Qed.

(* --------------------------------------------------------------------- *)
(** ** A second pass *)
(* --------------------------------------------------------------------- *)

Lemma seen_again_make_item env seen1 seen2 cat name p :
  seen_again (make_item env seen1 cat name p) = seen_again (make_item env seen2 cat name p).
Proof. done. Qed.

Lemma seen_again_merged env seen1 seen2 feeds :
  map seen_again (merged env seen1 feeds) = map seen_again (merged env seen2 feeds).
Proof.
  unfold merged. induction feeds as [|f feeds IH]; [done|].
  simpl. rewrite !map_app, IH. f_equal.
  unfold contribution. destruct (outcome env (f_urls f) []) as [u parsed|e]; [|done].
  rewrite !map_map. apply map_ext. intros p. apply seen_again_make_item.
Qed.

Lemma insert_desc_map (g : Item → Item) (x : Item) (l : list Item) :
  (∀ y, it_epoch (g y) = it_epoch y) →
  insert_desc (g x) (map g l) = map g (insert_desc x l).
Proof.
  intros Hg. induction l as [|y l IH]; [done|]. simpl.
  unfold sort_key. rewrite !Hg. fold (sort_key x) (sort_key y).
  destruct (Qle_bool (sort_key y) (sort_key x)); [done|]. simpl. by rewrite IH.
Qed.

Lemma sort_desc_map (g : Item → Item) (l : list Item) :
  (∀ y, it_epoch (g y) = it_epoch y) → sort_desc (map g l) = map g (sort_desc l).
Proof.
  intros Hg. induction l as [|x l IH]; [done|].
  simpl. fold (sort_desc (map g l)) (sort_desc l). by rewrite IH, insert_desc_map.
Qed.

Lemma seen_again_id (it : Item) : it_is_new it = false → seen_again it = it.
Proof. destruct it. simpl. by intros ->. Qed.

Lemma merged_is_new env seen feeds :
  Forall (λ it, it_is_new it = bool_decide (it_id it ∉ seen)) (merged env seen feeds).
Proof.
  apply Forall_forall. intros it Hit.
  by apply merged_origin in Hit as (f & pre & u & post & parsed & p & _ & _ & _ & _ & _ & ->).
Qed.

Lemma cut_sorted_elem_of (n : nat) (l : list Item) (it : Item) :
  it ∈ take n (sort_desc l) → it ∈ l.
Proof. intros H. eapply elem_of_submseteq; [exact H|apply cut_sorted_submseteq]. Qed.

(** X3: a live pass made right after a live pass whose ledger write
    succeeded returns the same items in the same order, none of them
    marked new any more, and the same statuses. *)
Theorem second_pass_nothing_new env feeds force_refresh w items statuses w' items2 statuses2 w2 :
  fetch_all_on env feeds force_refresh w = (Ok (items, statuses, py "live"), w') →
  seen_write_exn w = None →
  fetch_all_on env feeds true w' = (Ok (items2, statuses2, py "live"), w2) →
  items2 = map seen_again items ∧
  Forall (λ it, it_is_new it = false) items2 ∧
  statuses2 = statuses.
Proof.
  intros H1 Hsw H2.
  pose proof (ledger_holds_returned_ids _ _ _ _ _ _ _ H1 Hsw) as Hin.
  apply fetch_all_on_live in H1 as [Hi1 ->]. apply fetch_all_on_live in H2 as [Hi2 ->].
  assert (Hsame : map seen_again items2 = map seen_again items).
  { rewrite Hi1, Hi2.
    rewrite <- !firstn_map, <- !sort_desc_map by done.
    by rewrite (seen_again_merged env (seen_at_start w') (seen_at_start w)). }
  assert (Hnew : Forall (λ it, it_is_new it = false) items2).
  { apply Forall_forall. intros it Hit.
    assert (Hm : it ∈ merged env (seen_at_start w') feeds).
    { rewrite Hi2 in Hit. by eapply cut_sorted_elem_of. }
    pose proof (merged_is_new env (seen_at_start w') feeds) as Hn.
    rewrite Forall_forall in Hn. rewrite (Hn it Hm).
    apply bool_decide_eq_false_2. intros Hnot. apply Hnot.
    assert (Hid : it_id it ∈ map it_id (map seen_again items2)).
    { rewrite map_map. simpl. apply list_elem_of_In, in_map, list_elem_of_In, Hit. }
    rewrite Hsame, map_map in Hid. simpl in Hid.
    apply list_elem_of_In, in_map_iff in Hid as (it1 & <- & Hit1).
    rewrite Forall_forall in Hin. by apply Hin, list_elem_of_In. }
  split; [|by split].
  rewrite <- Hsame. clear -Hnew. induction Hnew as [|it l Hit _ IH]; [done|].
  simpl. by rewrite <- IH, seen_again_id.
Qed.

Lemma second_pass_nothing_new_witness :
  ∃ items statuses w' items2 statuses2 w2,
    fetch_all_on env_mixed FEEDS true world0 = (Ok (items, statuses, py "live"), w') ∧
    fetch_all_on env_mixed FEEDS true w' = (Ok (items2, statuses2, py "live"), w2) ∧
    map it_is_new items = [true] ∧ map it_is_new items2 = [false].
Proof.
  destruct (fetch_all_on env_mixed FEEDS true world0) as [r w'] eqn:E.
  assert (Hr : (∃ items statuses, r = Ok (items, statuses, py "live") ∧
                  map it_is_new items = [true]) ∧ cache_write_exn w' = None).
  { pose proof E as E'. vm_compute in E'. injection E' as <- <-.
    split; [eexists _, _; split; [reflexivity|]|]; by vm_compute. }
  destruct Hr as [(items & statuses & -> & Hnew) Hc].
  destruct (fetch_all_on env_mixed FEEDS true w') as [r2 w2] eqn:E2.
  assert (∃ items2 statuses2, r2 = Ok (items2, statuses2, py "live"))
    as (items2 & statuses2 & ->).
  { pose proof (live_pass_value env_mixed FEEDS w') as Hv.
    rewrite <- fetch_all_on_forced, E2, Hc in Hv. cbn [fst] in Hv. by eexists _, _. }
  exists items, statuses, w', items2, statuses2, w2.
  split; [done|]. split; [done|]. split; [done|].
  destruct (second_pass_nothing_new _ _ _ _ _ _ _ _ _ _ E eq_refl E2) as (-> & _ & _).
  rewrite map_map. clear -Hnew. by destruct items as [|it [|it2 items]].
Defined.

(** The sample pass: the first feed answers one story, the others fail. *)
Lemma sample_pass :
  ∃ items statuses w',
    fetch_all_on env_mixed FEEDS true world0 = (Ok (items, statuses, py "live"), w').
Proof.
  destruct (fetch_all_on env_mixed FEEDS true world0) as [r w'] eqn:E.
  vm_compute in E. injection E as <- <-. by eexists _, _, _.
Qed.

(* --------------------------------------------------------------------- *)
(** ** The fields of the items *)
(* --------------------------------------------------------------------- *)

Lemma rstrip_idem (s : str) : rstrip (rstrip s) = rstrip s.
Proof.
  induction s as [|c s IH]; [done|]. simpl.
  destruct (rstrip s) as [|d r] eqn:E.
  - destruct (isspace c) eqn:Ec; [done|]. simpl. by rewrite Ec.
  - change (rstrip (c :: d :: r)) with
      (match rstrip (d :: r) with [] => if isspace c then [] else [c] | x => c :: x end).
    by rewrite IH.
Qed.

Lemma lstrip_head (s : str) (c : N) (r : str) : lstrip s = c :: r → isspace c = false.
Proof.
  induction s as [|d s IH]; simpl; [done|].
  destruct (isspace d) eqn:E; [done|]. by intros [= <- _].
Qed.

Lemma rstrip_head (s : str) (c : N) (r : str) : rstrip s = c :: r → ∃ r', s = c :: r'.
Proof.
  destruct s as [|d s]; simpl; [done|].
  destruct (rstrip s); [destruct (isspace d)|]; intros [= <- _]; by eexists.
Qed.

Lemma lstrip_rstrip_lstrip (s : str) : lstrip (rstrip (lstrip s)) = rstrip (lstrip s).
Proof.
  destruct (rstrip (lstrip s)) as [|c r] eqn:E; [done|].
  apply rstrip_head in E as [r' E]. apply lstrip_head in E. simpl. by rewrite E.
Qed.

Lemma strip_idem (s : str) : strip (strip s) = strip s.
Proof. unfold strip. by rewrite lstrip_rstrip_lstrip, rstrip_idem. Qed.



(** X5: in every item of a live pass the title is not empty and has at
    most 260 code points, the summary has at most 1400, the URL has no
    white space around it, the domain is the one of the URL, and the
    category and the source are those of one of the feeds. *)
Theorem item_fields_bounded env feeds force_refresh w items statuses w' :
  fetch_all_on env feeds force_refresh w = (Ok (items, statuses, py "live"), w') →
  Forall (λ it,
    it_title it ≠ [] ∧ len (it_title it) <= 260 ∧
    len (it_summary it) <= 1400 ∧
    strip (it_url it) = it_url it ∧
    it_domain it = _domain_from_url (it_url it) ∧
    ∃ f, f ∈ feeds ∧ it_cat it = f_cat f ∧ it_src it = f_name f) items.
Proof.
  intros H. apply fetch_all_on_live in H as [-> _].
  apply Forall_forall. intros it Hit. apply cut_sorted_elem_of in Hit.
  apply merged_origin in Hit as (f & pre & u & post & parsed & p & Hf & _ & _ & _ & _ & ->).
  unfold make_item. simpl.
  set (title_raw := html_unescape env (_strip_html (p_title p))).
  pose proof (truncate_le_cap title_raw 260 ltac:(lia)) as Ht.
  split; [|split; [|split; [|split; [|split]]]].
  - unfold str_or. by destruct (_truncate title_raw 260).
  - unfold str_or. destruct (_truncate title_raw 260); [by vm_compute|done].
  - by apply truncate_le_cap.
  - apply strip_idem.
  - done.
  - by exists f.
Qed.

Lemma item_fields_bounded_witness :
  ∃ items statuses w',
    fetch_all_on env_mixed FEEDS true world0 = (Ok (items, statuses, py "live"), w') ∧
    Forall (λ it, it_title it ≠ [] ∧ len (it_title it) <= 260) items.
Proof.
  destruct sample_pass as (items & statuses & w' & E).
  exists items, statuses, w'. split; [done|].
  eapply Forall_impl; [exact (item_fields_bounded _ _ _ _ _ _ _ E)|].
  intros it (H1 & H2 & _). exact (conj H1 H2).
Defined.

(* --------------------------------------------------------------------- *)
(** ** The statuses and their counts *)
(* --------------------------------------------------------------------- *)






(* --------------------------------------------------------------------- *)
(** ** The operations of a pass, in order *)
(* --------------------------------------------------------------------- *)








(* --------------------------------------------------------------------- *)
(** ** The cap keeps the newest *)
(* --------------------------------------------------------------------- *)



(* --------------------------------------------------------------------- *)
(** ** A call served from the cache after a pass *)
(* --------------------------------------------------------------------- *)

(** X9: after a live pass, a call without [force_refresh] made while the
    snapshot is at most [CACHE_TTL_SECONDS] old returns the items and the
    statuses of that pass as they were, marked "cache", without any
    request and without reading or writing the ledger. *)
Theorem pass_then_cache env feeds force_refresh w items statuses w' t :
  fetch_all_on env feeds force_refresh w = (Ok (items, statuses, py "live"), w') →
  (t - now w <= CACHE_TTL_SECONDS)%Q →
  fetch_all_on env feeds false (at_time t w') =
    (Ok (items, statuses, py "cache"), emit EvCacheRead (at_time t w')).
Proof. apply fetch_all_again_from_cache. Qed.

Lemma pass_then_cache_witness :
  ∃ items statuses w',
    fetch_all_on env_mixed FEEDS true world0 = (Ok (items, statuses, py "live"), w') ∧
    fetch_all_on env_mixed FEEDS false (at_time (1793707200 + 900) w') =
      (Ok (items, statuses, py "cache"), emit EvCacheRead (at_time (1793707200 + 900) w')).
Proof.
  destruct sample_pass as (items & statuses & w' & E).
  exists items, statuses, w'. split; [done|].
  apply (pass_then_cache _ _ _ _ _ _ _ _ E). by vm_compute.
Defined.

(* --------------------------------------------------------------------- *)
(** ** The tag stripper *)
(* --------------------------------------------------------------------- *)

Lemma lstrip_Forall (P : N → Prop) (s : str) : Forall P s → Forall P (lstrip s).
Proof.
  induction 1 as [|c s Hc Hs IH]; simpl; [done|].
  destruct (isspace c); [done|by constructor].
Qed.

Lemma rstrip_Forall (P : N → Prop) (s : str) : Forall P s → Forall P (rstrip s).
Proof.
  induction 1 as [|c s Hc Hs IH]; simpl; [done|].
  destruct (rstrip s); [destruct (isspace c); by repeat constructor|by constructor].
Qed.

Lemma strip_Forall (P : N → Prop) (s : str) : Forall P s → Forall P (strip s).
Proof. intros H. by apply rstrip_Forall, lstrip_Forall. Qed.

Lemma strip_html_scan_Forall (P : N → Prop) (b : bool) (s : str) :
  Forall P s → Forall (λ c, P c ∧ c ≠ 60%N ∧ c ≠ 62%N) (strip_html_scan b s).
Proof.
  intros H. revert b. induction H as [|c s Hc Hs IH]; intros b; simpl; [done|].
  destruct (N.eqb_spec c 60); [done|]. destruct (N.eqb_spec c 62); [done|].
  destruct b; simpl; [done|]. by constructor.
Qed.

Lemma replace_nbsp_Forall (P : N → Prop) (s : str) :
  P 32%N → Forall P s → Forall (λ c, P c ∧ c ≠ 160%N) (replace [160%N] [32%N] s).
Proof.
  intros H32 H. unfold replace. induction H as [|c s Hc Hs IH]; [done|].
  cbn [replace_from startswith]. destruct (N.eqb_spec 160 c) as [<-|Hne]; simpl.
  - by constructor.
  - constructor; [|done]. split; [done|]. by intros ->.
Qed.

Lemma strip_html_scan_clean (s : str) :
  Forall (λ c, c ≠ 60%N ∧ c ≠ 62%N) s → strip_html_scan false s = s.
Proof.
  induction 1 as [|c s [H1 H2] Hs IH]; simpl; [done|].
  destruct (N.eqb_spec c 60); [done|]. destruct (N.eqb_spec c 62); [done|].
  by rewrite IH.
Qed.

Lemma replace_nbsp_clean (s : str) :
  Forall (λ c, c ≠ 160%N) s → replace [160%N] [32%N] s = s.
Proof.
  unfold replace. induction 1 as [|c s Hc Hs IH]; [done|].
  cbn [replace_from startswith]. destruct (N.eqb_spec 160 c) as [<-|Hne]; [done|].
  simpl. by rewrite IH.
Qed.

Lemma strip_html_scan_app (b : bool) (pre rest : str) :
  strip_html_scan b (pre ++ 60%N :: rest) = strip_html_scan b pre ++ strip_html_scan true rest.
Proof.
  revert b. induction pre as [|c pre IH]; intros b; simpl; [done|].
  destruct (c =? 60)%N; [apply IH|]. destruct (c =? 62)%N; [apply IH|].
  destruct b; simpl; by rewrite IH.
Qed.

Lemma strip_html_scan_unclosed (rest : str) :
  Forall (λ c, c ≠ 62%N) rest → strip_html_scan true rest = [].
Proof.
  induction 1 as [|c s Hc Hs IH]; simpl; [done|].
  destruct (c =? 60)%N; [done|]. by destruct (N.eqb_spec c 62).
Qed.

(** X10: the text [_strip_html] returns holds no "<", no ">" and no
    no-break space, and no white space around it; stripping it again
    changes nothing.  A "<" that no ">" follows swallows the rest of the
    text: what comes after it is dropped. *)
Theorem strip_html_result (text : str) :
  Forall (λ c, c ≠ 60%N ∧ c ≠ 62%N ∧ c ≠ 160%N) (_strip_html text) ∧
  strip (_strip_html text) = _strip_html text ∧
  _strip_html (_strip_html text) = _strip_html text ∧
  (∀ pre rest, text = pre ++ 60%N :: rest → Forall (λ c, c ≠ 62%N) rest →
     _strip_html text = _strip_html pre).
Proof.
  assert (Hclean : Forall (λ c, c ≠ 60%N ∧ c ≠ 62%N ∧ c ≠ 160%N) (_strip_html text)).
  { unfold _strip_html. apply strip_Forall.
    assert (H1 : Forall (λ c, c ≠ 60%N ∧ c ≠ 62%N) (strip_html_scan false text)).
    { eapply Forall_impl; [apply (strip_html_scan_Forall (λ _, True))|].
      - by apply Forall_forall.
      - by intros c (_ & ? & ?). }
    eapply Forall_impl; [apply (replace_nbsp_Forall (λ c, c ≠ 60%N ∧ c ≠ 62%N)); [done|exact H1]|].
    by intros c ((? & ?) & ?). }
  split; [exact Hclean|]. split; [apply strip_idem|]. split.
  - unfold _strip_html at 1.
    rewrite strip_html_scan_clean by (eapply Forall_impl; [exact Hclean|by intros c (? & ? & ?)]).
    rewrite replace_nbsp_clean by (eapply Forall_impl; [exact Hclean|by intros c (? & ? & ?)]).
    apply strip_idem.
  - intros pre rest -> Hrest. unfold _strip_html.
    by rewrite strip_html_scan_app, (strip_html_scan_unclosed rest Hrest), app_nil_r.
Qed.

Lemma strip_html_result_witness :
  _strip_html (py "<p>Rates <b>rise</b></p> if x < 2 and more") = py "Rates rise if x".
Proof.
  destruct (strip_html_result (py "<p>Rates <b>rise</b></p> if x < 2 and more"))
    as (_ & _ & _ & H).
  rewrite (H (py "<p>Rates <b>rise</b></p> if x ") (py " 2 and more") eq_refl).
  - by vm_compute.
  - apply Forall_forall. intros c Hc ->. by vm_compute in Hc; set_solver.
Defined.

(* --------------------------------------------------------------------- *)
(** ** Truncating twice *)
(* --------------------------------------------------------------------- *)

Lemma lstrip_fixed (s : str) : match s with c :: _ => isspace c = false | [] => True end →
  lstrip s = s.
Proof. destruct s as [|c s]; simpl; [done|]. by intros ->. Qed.

Lemma strip_head (s : str) (c : N) (r : str) : strip s = c :: r → isspace c = false.
Proof.
  unfold strip. intros H. apply rstrip_head in H as [r' H]. by apply lstrip_head in H.
Qed.

(** X11: for a cap of at least 1, what [_truncate] returns has no white
    space around it, and truncating it again under the same cap returns
    it unchanged. *)
Theorem truncate_idempotent (s : str) (n : Z) :
  1 <= n →
  strip (_truncate s n) = _truncate s n ∧
  _truncate (_truncate s n) n = _truncate s n.
Proof.
  intros Hn.
  assert (Hs : strip (_truncate s n) = _truncate s n).
  { unfold _truncate. destruct (len (strip s) <=? n); [apply strip_idem|].
    set (k := Z.to_nat (Z.max 0 (n - 1))).
    assert (Hsp : isspace ELLIPSIS = false) by done.
    unfold strip at 1. rewrite lstrip_fixed; [by apply rstrip_snoc|].
    destruct (rstrip (take k (strip s))) as [|c r] eqn:E; [exact Hsp|].
    apply rstrip_head in E as [r' E].
    destruct (strip s) as [|d t] eqn:Es; [by destruct k|].
    destruct k; [done|]. injection E as <- _.
    change (isspace d = false). by apply strip_head in Es. }
  split; [exact Hs|].
  rewrite truncate_within; [exact Hs|]. rewrite Hs. by apply truncate_le_cap.
Qed.

Lemma truncate_idempotent_witness :
  _truncate (_truncate title_300_blank 260) 260 = _truncate title_300_blank 260.
Proof. by destruct (truncate_idempotent title_300_blank 260 ltac:(lia)) as [_ H]. Defined.

(* --------------------------------------------------------------------- *)
(** ** The shape of a domain *)
(* --------------------------------------------------------------------- *)

Lemma split1_fst_Forall (P : N → Prop) (sep s : str) :
  Forall P s → Forall P (fst (split1 sep s)).
Proof.
  induction 1 as [|c s Hc Hs IH]; simpl; [done|].
  destruct (startswith sep (c :: s)); [done|].
  destruct (split1 sep s) as [a b]. simpl in *. by constructor.
Qed.





(* --------------------------------------------------------------------- *)
(** ** The feed parser *)
(* --------------------------------------------------------------------- *)



Lemma atom_link_app (pre : list Element) (c : Element) (post : list Element) :
  Forall (λ d, is_alternate_link d = false) pre → is_alternate_link c = true →
  atom_link (pre ++ c :: post) = strip (default [] (attrib c !! py "href")).
Proof.
  intros Hpre Hc. induction Hpre as [|d pre Hd _ IH]; simpl; [by rewrite Hc|].
  by rewrite Hd.
Qed.

Lemma atom_link_none (cs : list Element) :
  Forall (λ d, is_alternate_link d = false) cs → atom_link cs = [].
Proof. induction 1 as [|d cs Hd _ IH]; simpl; [done|]. by rewrite Hd. Qed.

(** X14: the URL of an Atom entry is the [href], trimmed, of its first
    child whose tag ends in "link", whose [href] is not blank and whose
    [rel] is absent, blank or "alternate" in any case of letters; it is
    never blank then.  An entry without such a child has the empty URL,
    whatever other links ([self], [enclosure], ...) it has. *)
Theorem atom_link_choice (e : Element) :
  (∀ pre c post,
     children e = pre ++ c :: post →
     Forall (λ d, is_alternate_link d = false) pre → is_alternate_link c = true →
     p_url (atom_record e) = strip (default [] (attrib c !! py "href")) ∧
     p_url (atom_record e) ≠ []) ∧
  (Forall (λ d, is_alternate_link d = false) (children e) → p_url (atom_record e) = []).
Proof.
  split.
  - intros pre c post Hcs Hpre Hc. simpl. rewrite Hcs, (atom_link_app _ _ _ Hpre Hc).
    split; [done|]. unfold is_alternate_link in Hc.
    apply andb_true_iff in Hc as [_ Hc]. apply andb_true_iff in Hc as [Hc _].
    by destruct (strip (default [] (attrib c !! py "href"))).
  - intros H. simpl. by apply atom_link_none.
Qed.

Lemma atom_link_choice_witness :
  p_url (atom_record (Elem (py "{http://www.w3.org/2005/Atom}entry") ∅ []
           [link_to "self" "https://example.org/feed.atom";
            link_to "Alternate" " https://example.org/post/1 ";
            link_to "alternate" "https://example.org/post/1/amp"]))
    = py "https://example.org/post/1" ∧
  p_url (atom_record (Elem (py "entry") ∅ []
           [link_to "enclosure" "https://example.org/audio.mp3"])) = [].
Proof.
  split.
  - destruct (atom_link_choice (Elem (py "{http://www.w3.org/2005/Atom}entry") ∅ []
           [link_to "self" "https://example.org/feed.atom";
            link_to "Alternate" " https://example.org/post/1 ";
            link_to "alternate" "https://example.org/post/1/amp"])) as [H _].
    destruct (H [link_to "self" "https://example.org/feed.atom"]
                (link_to "Alternate" " https://example.org/post/1 ")
                [link_to "alternate" "https://example.org/post/1/amp"] eq_refl) as [-> _].
    + constructor; [by vm_compute|constructor].
    + by vm_compute.
    + by vm_compute.
  - destruct (atom_link_choice (Elem (py "entry") ∅ []
           [link_to "enclosure" "https://example.org/audio.mp3"])) as [_ H].
    apply H. constructor; [by vm_compute|constructor].
Defined.

(* --------------------------------------------------------------------- *)
(** ** What the worker speaks *)
(* --------------------------------------------------------------------- *)

Lemma run_snoc (actions : list Action) (a : Action) (st : Worker) :
  run (actions ++ [a]) st = step a (run actions st).
Proof. unfold run. by rewrite foldl_snoc. Qed.

Lemma run_app (l1 l2 : list Action) (st : Worker) : run (l1 ++ l2) st = run l2 (run l1 st).
Proof. unfold run. by rewrite foldl_app. Qed.

Lemma puts_snoc (actions : list Action) (a : Action) :
  puts (actions ++ [a]) = puts actions ++ match a with Put c => [c] | _ => [] end.
Proof. unfold puts. rewrite omap_app. by destruct a. Qed.

Lemma speak_texts_app (l1 l2 : list Command) :
  speak_texts (l1 ++ l2) = speak_texts l1 ++ speak_texts l2.
Proof. apply omap_app. Qed.

Lemma spoken_text_speakable (payload text : str) :
  spoken_text payload = Some text → text ≠ [] ∧ len text <= 2500.
Proof.
  unfold spoken_text. destruct (strip payload) as [|c s] eqn:E; [done|].
  cbn [is_empty]. set (t := c :: s).
  destruct (Z.ltb_spec 2500 (len t)) as [H|H]; intros [= <-].
  - split; [by destruct (take 2490 t)|].
    unfold len. cbn [length]. rewrite length_app, length_take. cbn [length]. lia.
  - done.
Qed.

Lemma kill_proc_started st : started (_kill_proc st) = started st.
Proof. unfold _kill_proc. by destruct (_proc st). Qed.

Lemma worker_step_spoken raises st :
  started (worker_step raises st) ++ pending (worker_step raises st)
    `sublist_of` started st ++ pending st.
Proof.
  assert (Hdrop : ∀ (a : list str) t rest, a ++ rest `sublist_of` a ++ t :: rest).
  { intros a t rest. apply sublist_app; [done|]. by apply sublist_cons. }
  destruct st as [q [p0|] alive c r s]; unfold worker_step, pending, _kill_proc; simpl.
  all: destruct c as [| | |text|p|]; simpl; try done.
  all: try (by destruct alive).
  all: try (destruct q as [|[payload| |] q]; simpl; try done;
            unfold speak_texts at 2; cbn [omap list_omap]; fold (speak_texts q);
            try (unfold spoken_text; by destruct (is_empty (strip payload)));
            try (destruct (spoken_text payload) as [t|]; simpl; [apply Hdrop|done])).
  all: destruct raises; simpl; try apply Hdrop; try (by rewrite <- app_assoc);
       try done; by case_bool_decide.
Qed.

Lemma run_spoken (actions : list Action) :
  started (run actions worker0) ++ pending (run actions worker0)
    `sublist_of` speak_texts (puts actions).
Proof.
  induction actions as [|a actions IH] using rev_ind; [done|].
  rewrite run_snoc, puts_snoc. set (st := run actions worker0) in *.
  destruct a as [c| |p| |]; simpl; rewrite ?app_nil_r.
  - unfold pending. simpl. rewrite !speak_texts_app, !app_assoc.
    apply sublist_app; [|done]. by rewrite <- app_assoc.
  - exact IH.
  - exact IH.
  - etransitivity; [apply worker_step_spoken|exact IH].
  - etransitivity; [apply worker_step_spoken|exact IH].
Qed.

(** X15: whatever happens, the texts the worker has started to speak are
    texts of "speak" commands that were put on its queue, trimmed and cut
    as [_run] does, in the order in which the commands were put and each
    command at most once; every text started is not empty and has at most
    2500 code points. *)
Theorem worker_speaks_what_was_asked (actions : list Action) :
  started (run actions worker0) `sublist_of` speak_texts (puts actions) ∧
  Forall (λ text, text ≠ [] ∧ len text <= 2500) (started (run actions worker0)).
Proof.
  assert (H : started (run actions worker0) `sublist_of` speak_texts (puts actions)).
  { etransitivity; [|apply run_spoken]. by apply sublist_inserts_r. }
  split; [exact H|].
  apply Forall_forall. intros text Ht.
  assert (Hin : text ∈ speak_texts (puts actions)).
  { eapply elem_of_sublist; [exact Ht|exact H]. }
  unfold speak_texts in Hin. apply list_elem_of_omap in Hin as (c & _ & Hc).
  destruct c as [payload| |]; try done. by apply spoken_text_speakable in Hc.
Qed.

(* --------------------------------------------------------------------- *)
(** ** A stop while a text is spoken *)
(* --------------------------------------------------------------------- *)

(** X16: while the worker thread waits for a speech process that has not
    ended, it takes nothing from its queue: whatever is put meanwhile, a
    "stop" included, stays on the queue, and the process keeps running
    until it ends by itself. *)
Theorem stop_waits_for_speech (actions : list Action) (st : Worker) (p : nat) :
  pc st = Waiting p → p ∈ running st → forallb quiet actions = true →
  pc (run actions st) = Waiting p ∧
  running (run actions st) = running st ∧
  started (run actions st) = started st ∧
  _proc (run actions st) = _proc st ∧
  _q (run actions st) = _q st ++ puts actions.
Proof.
  revert st. induction actions as [|a actions IH]; intros st Hpc Hp Hq.
  - simpl. by rewrite app_nil_r.
  - simpl in Hq. apply andb_true_iff in Hq as [Ha Hq].
    change (run (a :: actions) st) with (run actions (step a st)).
    assert (Hs : pc (step a st) = Waiting p ∧ running (step a st) = running st ∧
                 started (step a st) = started st ∧ _proc (step a st) = _proc st ∧
                 _q (step a st) = _q st ++ puts [a]).
    { destruct a as [c| |p'| |]; try done; simpl.
      - by rewrite app_nil_r.
      - unfold worker_step. rewrite Hpc, bool_decide_eq_true_2 by done.
        by rewrite app_nil_r. }
    destruct Hs as (Hpc' & Hr' & Hs' & Hp' & Hq').
    destruct (IH (step a st)) as (H1 & H2 & H3 & H4 & H5); [done|by rewrite Hr'|done|].
    rewrite H1, H2, H3, H4, H5, Hr', Hs', Hp', Hq'. repeat (split; [done|]).
    rewrite <- app_assoc. f_equal. unfold puts. by destruct a.
Qed.

Lemma stop_waits_for_speech_witness :
  let st := run [Put (Speak (py "a long story")); Work; Work; Work] worker0 in
  let st' := run [Put Stop; Work; Work; Work] st in
  pc st = Waiting 0%nat ∧ running st' = {[0%nat]} ∧ _q st' = [Stop].
Proof.
  intros st st'.
  assert (Hpc : pc st = Waiting 0%nat) by by vm_compute.
  assert (Hr : running st = {[0%nat]}) by by vm_compute.
  destruct (stop_waits_for_speech [Put Stop; Work; Work; Work] st 0%nat Hpc)
    as (_ & Hr' & _ & _ & Hq'); [by rewrite Hr; set_solver|done|].
  split; [done|]. split; [by rewrite <- Hr|]. exact Hq'.
Defined.

(* --------------------------------------------------------------------- *)
(** ** Shutting the worker down *)
(* --------------------------------------------------------------------- *)

Lemma drain_steps_le (q : list Command) : Quit ∈ q → (drain_steps q ≤ length q)%nat.
Proof.
  induction q as [|[payload| |] q IH]; simpl; intros H.
  - by apply elem_of_nil in H.
  - apply elem_of_cons in H as [H|H]; [done|]. apply IH in H. lia.
  - apply elem_of_cons in H as [H|H]; [done|]. apply IH in H. lia.
  - lia.
Qed.

Lemma rounds_app (n m : nat) (st : Worker) : rounds (n + m) st = rounds m (rounds n st).
Proof. revert st. induction n as [|n IH]; intros st; simpl; [done|]. apply IH. Qed.

Lemma rounds_drain (st : Worker) :
  pc st = Draining → Quit ∈ _q st →
  pc (rounds (drain_steps (_q st)) st) = Returned.
Proof.
  destruct st as [q proc alive c r s]. simpl. intros -> Hq.
  induction q as [|[payload| |] q IH]; simpl in *.
  - by apply elem_of_nil in Hq.
  - apply IH. by apply elem_of_cons in Hq as [Hq|Hq].
  - apply IH. by apply elem_of_cons in Hq as [Hq|Hq].
  - done.
Qed.

Lemma rounds_returned (n : nat) (st : Worker) : pc st = Returned → pc (rounds n st) = Returned.
Proof.
  revert st. induction n as [|n IH]; intros st H; simpl; [done|].
  apply IH. unfold round. rewrite H. simpl. unfold worker_step. by rewrite H.
Qed.

Lemma rounds_S (n : nat) (st : Worker) : rounds (S n) st = rounds n (round st).
Proof. done. Qed.

Lemma round_not_waiting (st : Worker) :
  (∀ p, pc st ≠ Waiting p) → round st = worker_step false st.
Proof. unfold round. intros H. destruct (pc st) as [| | |text|p|] eqn:E; try done. by destruct (H p). Qed.

Lemma round_loop_head (st : Worker) :
  pc st = AtLoopHead → _alive st = false → pc (round st) = Returned.
Proof.
  intros Hpc Ha. rewrite round_not_waiting by (intros p; by rewrite Hpc).
  unfold worker_step. by rewrite Hpc, Ha.
Qed.

Lemma round_waiting (st : Worker) (p : nat) :
  pc st = Waiting p → pc (round st) = AtLoopHead ∧ _alive (round st) = _alive st.
Proof.
  intros Hpc. unfold round. rewrite Hpc. destruct st as [q proc alive c r s].
  cbn [pc] in Hpc. subst c. cbn [step _q _proc _alive pc running started].
  unfold worker_step. cbn [pc running].
  by rewrite bool_decide_eq_false_2 by set_solver.
Qed.

Lemma round_launching (st : Worker) (text : str) :
  pc st = Launching text →
  pc (round st) = Waiting (length (started st)) ∧ _alive (round st) = _alive st.
Proof.
  intros Hpc. rewrite round_not_waiting by (intros p; by rewrite Hpc).
  unfold worker_step. by rewrite Hpc.
Qed.

Lemma kill_proc_alive (st : Worker) : _alive (_kill_proc st) = _alive st.
Proof. unfold _kill_proc. by destruct (_proc st). Qed.

Lemma round_get_speak (st : Worker) (payload : str) (q : list Command) :
  pc st = InGet → _q st = Speak payload :: q →
  (pc (round st) = AtLoopHead ∨ ∃ text, pc (round st) = Launching text) ∧
  _alive (round st) = _alive st.
Proof.
  intros Hpc Hq. rewrite round_not_waiting by (intros p; by rewrite Hpc).
  unfold worker_step. rewrite Hpc, Hq. cbv zeta.
  destruct (is_empty (strip payload)).
  - split; [by left|done].
  - split; [right; by eexists|]. cbn [set_pc _alive]. by rewrite kill_proc_alive.
Qed.

(** Once [_alive] is false and a "__quit__" is on the queue, the thread
    returns within a number of rounds bounded by the length of the queue. *)
Lemma rounds_to_return (st : Worker) :
  _alive st = false → Quit ∈ _q st →
  ∃ n, (n ≤ length (_q st) + 4)%nat ∧ pc (rounds n st) = Returned.
Proof.
  intros Ha Hq.
  assert (Hhead : ∀ st', pc st' = AtLoopHead → _alive st' = false →
                         pc (rounds 1 st') = Returned).
  { intros st' H1 H2. rewrite (rounds_S 0 st'). by apply round_loop_head. }
  assert (Hwait : ∀ st' p, pc st' = Waiting p → _alive st' = false →
                           pc (rounds 2 st') = Returned).
  { intros st' p H1 H2. destruct (round_waiting st' p H1) as [H3 H4].
    rewrite (rounds_S 1 st'). apply Hhead; congruence. }
  assert (Hlaunch : ∀ st' text, pc st' = Launching text → _alive st' = false →
                                pc (rounds 3 st') = Returned).
  { intros st' text H1 H2. destruct (round_launching st' text H1) as [H3 H4].
    rewrite (rounds_S 2 st'). apply Hwait with (length (started st')); congruence. }
  destruct (pc st) as [| | |text|p|] eqn:Epc.
  - exists 1%nat. split; [lia|]. by apply Hhead.
  - destruct (_q st) as [|[payload| |] q] eqn:Eq.
    + by apply elem_of_nil in Hq.
    + destruct (round_get_speak st payload q Epc Eq) as [[H1|[text H1]] H2].
      * exists 2%nat. split; [cbn [length]; lia|].
        rewrite (rounds_S 1 st). apply Hhead; congruence.
      * exists 4%nat. split; [cbn [length]; lia|].
        rewrite (rounds_S 3 st). apply Hlaunch with text; congruence.
    + assert (Hq' : Quit ∈ q) by (by apply elem_of_cons in Hq as [Hq|Hq]).
      exists (1 + drain_steps q)%nat. split.
      { pose proof (drain_steps_le q Hq'). cbn [length]. lia. }
      rewrite rounds_app.
      assert (H1 : rounds 1 st = set_pc Draining (_kill_proc (set_q q st))).
      { rewrite (rounds_S 0 st). cbn [rounds]. rewrite round_not_waiting by (intros p; by rewrite Epc).
        unfold worker_step. by rewrite Epc, Eq. }
      rewrite H1.
      pose proof (rounds_drain (set_pc Draining (_kill_proc (set_q q st))) eq_refl) as Hd.
      cbn [set_pc _q] in Hd. rewrite kill_proc_q in Hd. by apply Hd.
    + exists 1%nat. split; [cbn [length]; lia|]. rewrite (rounds_S 0 st). cbn [rounds].
      rewrite round_not_waiting by (intros p; by rewrite Epc).
      unfold worker_step. by rewrite Epc, Eq.
  - exists (drain_steps (_q st)). split.
    + pose proof (drain_steps_le _ Hq). lia.
    + by apply rounds_drain.
  - exists 3%nat. split; [lia|]. by apply (Hlaunch st text).
  - exists 2%nat. split; [lia|]. by apply (Hwait st p).
  - exists 0%nat. split; [lia|done].
Qed.

Lemma reachable_run (actions : list Action) (st : Worker) :
  reachable st → reachable (run actions st).
Proof. intros [l ->]. exists (l ++ actions). by rewrite run_app. Qed.

Lemma reachable_rounds (n : nat) (st : Worker) : reachable st → reachable (rounds n st).
Proof.
  revert st. induction n as [|n IH]; intros st H; simpl; [done|]. apply IH.
  unfold round. destruct (pc st) as [| | |text|p|];
    try apply (reachable_run [Work] st H).
  apply (reachable_run [Ended p; Work] st H).
Qed.

(** X17: after [shutdown], from whatever state the worker is in, the
    thread of [_run] returns: it does so within a number of rounds bounded
    by the length of the queue (a round: the speech being waited for ends,
    the thread advances), and then no speech process is left running; once
    it has returned, nothing put on the queue is processed any more. *)
Theorem shutdown_ends_worker (st : Worker) :
  reachable st →
  (∃ n, (n ≤ length (_q st) + 6)%nat ∧
        pc (rounds n (run shutdown st)) = Returned ∧
        running (rounds n (run shutdown st)) = ∅) ∧
  (pc st = Returned →
   ∀ actions, pc (run actions st) = Returned ∧ started (run actions st) = started st).
Proof.
  intros Hreach. split.
  - destruct (rounds_to_return (run shutdown st)) as (n & Hn & Hpc).
    + done.
    + simpl. set_solver.
    + exists n. split; [|split; [exact Hpc|]].
      * simpl in Hn. rewrite length_app in Hn. simpl in Hn.
        rewrite length_app in Hn. simpl in Hn. lia.
      * apply single_flight_running; [by rewrite Hpc|].
        by apply reachable_single_flight, reachable_rounds, reachable_run.
  - intros Hpc actions. clear Hreach. revert st Hpc.
    induction actions as [|a actions IH]; intros st Hpc; [done|].
    change (run (a :: actions) st) with (run actions (step a st)).
    assert (Hs : pc (step a st) = Returned ∧ started (step a st) = started st).
    { destruct a; simpl; try done; unfold worker_step; by rewrite Hpc. }
    destruct Hs as [Hpc' Hst'].
    destruct (IH (step a st) Hpc') as [H1 H2]. split; [done|congruence].
Qed.

Lemma shutdown_ends_worker_witness :
  let st := run [Put (Speak (py "x")); Work; Work; Work; Put (Speak (py "y"))] worker0 in
  reachable st ∧ pc st = Waiting 0%nat ∧
  ∃ n, (n ≤ 7)%nat ∧ pc (rounds n (run shutdown st)) = Returned ∧
       running (rounds n (run shutdown st)) = ∅.
Proof.
  intros st.
  assert (Hreach : reachable st) by by eexists.
  split; [done|]. split; [by vm_compute|].
  destruct (shutdown_ends_worker st Hreach) as [(n & Hn & Hpc & Hr) _].
  exists n. split; [|by split].
  assert (Hq : length (_q st) = 1%nat) by by vm_compute.
  rewrite Hq in Hn. lia.
Defined.

(* --------------------------------------------------------------------- *)
(** ** The latch and passes without headline *)
(* --------------------------------------------------------------------- *)

Lemma latch_empty flags st q :
  _auto_speak_newest_headline_if_changed flags [] st q =
  ({| _first_load_done := true;
      _last_newest_headline_id := _last_newest_headline_id st |}, q).
Proof. unfold _auto_speak_newest_headline_if_changed. by destruct (negb _). Qed.

(** X18: a pass without headline speaks nothing and keeps the latched id,
    but it ends the first-load phase: with speak-on-start disabled, the
    first headline that appears after a first pass without headline is
    spoken, while a headline whose id was latched before a pass without
    headline is not spoken again after it. *)
Theorem latch_after_empty_pass flags :
  speak_newest_headline_on_change flags = true →
  speak_on_start flags = false →
  (∀ x t, it_id x ≠ [] →
     snd (passes flags [[]; x :: t] latch0 []) = [spoken flags x]) ∧
  (∀ x t x' t', it_id x' = it_id x →
     snd (passes flags [x :: t; []; x' :: t'] latch0 []) = []).
Proof.
  intros Hon Hstart. split.
  - intros x t Hx. unfold passes. simpl. rewrite latch_empty. simpl.
    by rewrite (latch_changed flags x t).
  - intros x t x' t' Hid. unfold passes. simpl.
    rewrite (latch_first flags x t latch0 [] Hon Hstart eq_refl). simpl.
    rewrite latch_empty. simpl.
    rewrite (latch_unchanged flags x' t'); [done|done|done|by right].
Qed.

Lemma latch_after_empty_pass_witness :
  snd (passes FLAGS [[]; [headline_A]] latch0 []) = [Speak (py "NEWS. CBC. Headline A.")].
Proof.
  destruct (latch_after_empty_pass FLAGS eq_refl eq_refl) as [H _].
  rewrite (H headline_A []); by vm_compute.
Defined.

(* --------------------------------------------------------------------- *)
(** ** The headlines *)
(* --------------------------------------------------------------------- *)

Lemma sort_desc_sorted_id (l : list Item) : StronglySorted epoch_ge l → sort_desc l = l.
Proof. intros H. symmetry. by apply stable_sort_is_sort_desc. Qed.

Lemma StronglySorted_filter {A} (R : relation A) (f : A → bool) (l : list A) :
  StronglySorted R l → StronglySorted R (List.filter f l).
Proof.
  induction 1 as [|x l Hl IH Hx]; simpl; [constructor|].
  destruct (f x); [|done]. constructor; [done|].
  rewrite Forall_forall in *. intros y Hy. apply Hx.
  apply list_elem_of_In, filter_In in Hy as [Hy _]. by apply list_elem_of_In.
Qed.

(** X19: the headline list holds at most 10 items, sorted by epoch
    descending, each an item of the list shown that is in a headline
    category and passes the filters.  When the items are sorted already,
    as [fetch_all] returns them, the headlines are the first 10 of the
    items that qualify, in the order of the list, so the newest headline
    is the first item that qualifies. *)
Theorem headlines_are_first_ten (v : View) (items : list Item) :
  (length (_render_headlines v items) ≤ HEADLINE_COUNT)%nat ∧
  StronglySorted epoch_ge (_render_headlines v items) ∧
  Forall (λ it, it ∈ items ∧ it_cat it ∈ HEADLINE_CATS ∧ _passes_filters v it = true)
         (_render_headlines v items) ∧
  (StronglySorted epoch_ge items →
     _render_headlines v items =
       take HEADLINE_COUNT
         (List.filter (λ it, bool_decide (it_cat it ∈ HEADLINE_CATS) && _passes_filters v it)
                      items)).
Proof.
  unfold _render_headlines. split; [apply firstn_le_length|]. split; [|split].
  - apply StronglySorted_take, sort_desc_sorted.
  - apply Forall_forall. intros it Hit. apply cut_sorted_elem_of in Hit.
    apply list_elem_of_In, filter_In in Hit as [Hit Hf].
    apply andb_true_iff in Hf as [Hc Hp]. apply bool_decide_eq_true in Hc.
    by rewrite list_elem_of_In.
  - intros Hs. by rewrite sort_desc_sorted_id by by apply StronglySorted_filter.
Qed.

Lemma headlines_are_first_ten_witness :
  _render_headlines view0 [headline_B; headline_A] = [headline_B; headline_A].
Proof.
  destruct (headlines_are_first_ten view0 [headline_B; headline_A]) as (_ & _ & _ & H).
  rewrite H; [by vm_compute|].
  repeat constructor. unfold epoch_ge. by vm_compute.
Defined.

(* --------------------------------------------------------------------- *)
(** ** The category toggles *)
(* --------------------------------------------------------------------- *)

(** X20: toggling a category twice restores the set of active
    categories.  With no category active the category filter lets every
    item through, so for items whose category is one of [CATEGORY_KEYS]
    the key "A" changes nothing of what is shown once all or none are
    active. *)
Theorem toggles (v : View) :
  (∀ cat, active_cats (_toggle_cat cat (_toggle_cat cat v)) = active_cats v) ∧
  (∀ it, active_cats v = ∅ → filter_text v = [] → _passes_filters v it = true) ∧
  (∀ it, it_cat it ∈ CATEGORY_KEYS →
     active_cats v = ∅ ∨ active_cats v = list_to_set CATEGORY_KEYS →
     _passes_filters (_toggle_all v) it = _passes_filters v it).
Proof.
  split; [|split].
  - intros cat. unfold _toggle_cat. simpl.
    destruct (decide (cat ∈ active_cats v)) as [Hin|Hnin].
    + rewrite (bool_decide_eq_true_2 _ Hin).
      rewrite bool_decide_eq_false_2 by set_solver.
      apply set_eq. intros x. rewrite elem_of_union, elem_of_singleton, elem_of_difference,
        elem_of_singleton. destruct (decide (x = cat)) as [->|]; naive_solver.
    + rewrite (bool_decide_eq_false_2 _ Hnin).
      rewrite bool_decide_eq_true_2 by set_solver. set_solver.
  - intros it Ha Hf. unfold _passes_filters. rewrite Ha, Hf.
    by rewrite bool_decide_eq_true_2.
  - intros it Hcat Hv.
    assert (Hkeys : it_cat it ∈ (list_to_set CATEGORY_KEYS : gset str))
      by by apply elem_of_list_to_set.
    assert (Hne : (list_to_set CATEGORY_KEYS : gset str) ≠ ∅) by set_solver.
    unfold _passes_filters, _toggle_all. simpl. destruct Hv as [Ha|Ha]; rewrite Ha.
    + rewrite (bool_decide_eq_true_2 (∅ = ∅)) by done. simpl.
      rewrite (bool_decide_eq_false_2 _ Hne), (bool_decide_eq_true_2 _ Hkeys). done.
    + rewrite (bool_decide_eq_false_2 _ Hne). simpl.
      rewrite (bool_decide_eq_true_2 (∅ = ∅)) by done.
      rewrite (bool_decide_eq_true_2 _ Hkeys). done.
Qed.

Lemma toggles_witness :
  _passes_filters (_toggle_all view0) headline_A = true ∧
  active_cats (_toggle_all view0) = ∅.
Proof.
  destruct (toggles view0) as (_ & _ & H). split; [|done].
  rewrite (H headline_A); [by vm_compute| |by right].
  apply list_elem_of_In. by vm_compute; tauto.
Defined.

(* --------------------------------------------------------------------- *)
(** ** The rows *)
(* --------------------------------------------------------------------- *)

Lemma row_items_app (l1 l2 : list DisplayRow) : row_items (l1 ++ l2) = row_items l1 ++ row_items l2.
Proof. apply omap_app. Qed.

Lemma row_items_ItemRow (l : list Item) : row_items (map ItemRow l) = l.
Proof.
  induction l as [|x l IH]; [done|].
  change (row_items (map ItemRow (x :: l))) with (x :: row_items (map ItemRow l)).
  by rewrite IH.
Qed.

Lemma filter_split_key (k : str) (ks : list str) (l : list Item) :
  k ∉ ks →
  List.filter (λ it, bool_decide (it_cat it ∈ k :: ks)) l ≡ₚ
  List.filter (λ it, bool_decide (it_cat it = k)) l
    ++ List.filter (λ it, bool_decide (it_cat it ∈ ks)) l.
Proof.
  intros Hk. induction l as [|x l IH]; [done|]. simpl.
  destruct (decide (it_cat x = k)) as [Hx|Hx].
  - rewrite (bool_decide_eq_true_2 (it_cat x ∈ k :: ks)) by (rewrite Hx; left).
    rewrite (bool_decide_eq_true_2 _ Hx).
    rewrite (bool_decide_eq_false_2 (it_cat x ∈ ks)) by by rewrite Hx.
    simpl. by rewrite IH.
  - rewrite (bool_decide_eq_false_2 _ Hx).
    destruct (decide (it_cat x ∈ ks)) as [Hin|Hnin].
    + rewrite (bool_decide_eq_true_2 (it_cat x ∈ k :: ks)) by by right.
      rewrite (bool_decide_eq_true_2 _ Hin). rewrite IH. apply Permutation_middle.
    + rewrite (bool_decide_eq_false_2 (it_cat x ∈ k :: ks)) by (rewrite elem_of_cons; tauto).
      by rewrite (bool_decide_eq_false_2 _ Hnin).
Qed.

Lemma grouped_rows_items (ks : list str) (l : list Item) :
  NoDup ks →
  row_items (flat_map (λ cat,
      let grp := List.filter (λ it, bool_decide (it_cat it = cat)) l in
      match grp with
      | [] => []
      | _ => HeaderRow cat (length grp) :: map ItemRow (sort_desc grp)
      end) ks)
  ≡ₚ List.filter (λ it, bool_decide (it_cat it ∈ ks)) l.
Proof.
  induction 1 as [|k ks Hk Hks IH]; cbn [flat_map].
  - induction l as [|x l IHl]; [done|]. cbn [List.filter].
    by rewrite bool_decide_eq_false_2 by apply not_elem_of_nil.
  - rewrite row_items_app, IH, (filter_split_key k ks l Hk).
    apply Permutation_app; [|done].
    destruct (List.filter (λ it, bool_decide (it_cat it = k)) l) as [|y grp] eqn:E; [done|].
    change (row_items (HeaderRow k (length (y :: grp)) :: map ItemRow (sort_desc (y :: grp))))
      with (row_items (map ItemRow (sort_desc (y :: grp)))).
    rewrite row_items_ItemRow. apply sort_desc_perm.
Qed.

(** X21: without grouping, the rows are the items that pass the filters,
    in their order, and nothing else.  With grouping, the item rows are
    the items that pass the filters and whose category is one of
    [CATEGORY_KEYS], each once (items of another category are not shown);
    every header names a category of [CATEGORY_KEYS] and counts the items
    of that category that pass the filters, at least one. *)
Theorem display_rows_cover_filtered (v : View) (items : list Item) :
  let filtered := List.filter (_passes_filters v) items in
  (group_by_cat v = false → _rebuild_display v items = map ItemRow filtered) ∧
  (group_by_cat v = true →
     row_items (_rebuild_display v items) ≡ₚ
       List.filter (λ it, bool_decide (it_cat it ∈ CATEGORY_KEYS)) filtered ∧
     ∀ cat n, HeaderRow cat n ∈ _rebuild_display v items →
       cat ∈ CATEGORY_KEYS ∧ (0 < n)%nat ∧
       n = length (List.filter (λ it, bool_decide (it_cat it = cat)) filtered)).
Proof.
  intros filtered. unfold _rebuild_display. fold filtered. split; intros ->; [done|].
  split.
  - apply grouped_rows_items. apply (bool_decide_unpack _). by vm_compute.
  - intros cat n Hin. apply list_elem_of_In, in_flat_map in Hin as (k & Hk & Hin).
    destruct (List.filter (λ it, bool_decide (it_cat it = k)) filtered) as [|y grp] eqn:E;
      [done|].
    destruct Hin as [Hin|Hin].
    + injection Hin as <- <-. rewrite E. split; [by apply list_elem_of_In|]. simpl. lia.
    + apply in_map_iff in Hin as (? & ? & _). discriminate.
Qed.

Lemma display_rows_cover_filtered_witness :
  _rebuild_display view0 [headline_B; headline_A] = [ItemRow headline_B; ItemRow headline_A] ∧
  row_items (_rebuild_display
               {| active_cats := ∅; group_by_cat := true; filter_text := [] |}
               [headline_B; headline_A]) ≡ₚ [headline_B; headline_A].
Proof.
  split.
  - destruct (display_rows_cover_filtered view0 [headline_B; headline_A]) as [H _].
    rewrite H; by vm_compute.
  - destruct (display_rows_cover_filtered
                {| active_cats := ∅; group_by_cat := true; filter_text := [] |}
                [headline_B; headline_A]) as [_ H].
    destruct (H eq_refl) as [-> _]. by vm_compute.
Defined.

(* --------------------------------------------------------------------- *)
(** ** The loading guard *)
(* --------------------------------------------------------------------- *)

Lemma load_step_one_load (s : Loading) (ev : LoadEvent) : one_load s → one_load (load_step s ev).
Proof.
  destruct s as [l f d]. unfold one_load.
  destruct ev; cbn; unfold _auto_refresh_tick, _load, _worker_fetch_done, _poll_queue; cbn;
    destruct l; cbn; try done.
  all: try (by intros [-> ->]).
  all: destruct f as [|x f], d as [|y d]; cbn; rewrite ?length_app; cbn;
       try done; try lia.
  all: try (intros [? ?]; done).
  all: try (intros H; destruct f; cbn in *; try done; lia).
  all: try (intros H; destruct d; cbn in *; try done; lia).
Qed.

Lemma load_run_one_load (events : list LoadEvent) : one_load (load_run events).
Proof.
  unfold load_run. induction events as [|ev events IH] using rev_ind.
  - done.
  - rewrite foldl_snoc. by apply load_step_one_load.
Qed.

(** X22: at most one fetch is under way at any time: while [_loading] is
    set there is exactly one fetch thread running or one result waiting to
    be polled, and otherwise none; a refresh asked for meanwhile (key or
    timer) changes nothing, it is dropped and not queued. *)
Theorem one_fetch_at_a_time (events : list LoadEvent) :
  let s := load_run events in
  (length (fetching s) + length (delivered s) ≤ 1)%nat ∧
  (_loading s = true ↔ (length (fetching s) + length (delivered s) = 1)%nat) ∧
  (_loading s = true → load_step s KeyRefresh = s ∧ load_step s AutoTick = s).
Proof.
  intros s. pose proof (load_run_one_load events) as H. fold s in H.
  unfold one_load in H. destruct (_loading s) eqn:E.
  - split; [lia|]. split; [done|]. intros _. simpl.
    unfold _auto_refresh_tick, _load. by rewrite E.
  - destruct H as [-> ->]. simpl. split; [lia|]. split; [|done]. split; [done|lia].
Qed.

Lemma one_fetch_at_a_time_witness :
  let s := load_run [AutoTick; KeyRefresh; FetchDone] in
  _loading s = true ∧ delivered s = [false] ∧
  load_step s KeyRefresh = s ∧ load_step s AutoTick = s.
Proof.
  intros s. destruct (one_fetch_at_a_time [AutoTick; KeyRefresh; FetchDone]) as (_ & _ & H).
  split; [done|]. split; [done|]. by apply H.
Defined.

(* --------------------------------------------------------------------- *)
(** ** The parser in the pass *)
(* --------------------------------------------------------------------- *)




